(** * Session engine of agents-ui (src-tauri/src/pty.rs, recording.rs)

    Shallow embedding of the PTY session manager: the streaming UTF-8
    decoder of the output pump, the session registry with its name
    de-duplication, the working-directory resolution of [create_session],
    the recorder with its flush policy, [write_to_session],
    [close_session] and [sanitize_recording_id].

    Representation choices.
    - A byte is a [Z] in [0, 255]; a byte buffer ([Vec<u8>], [&[u8]]) is a
      [list Z].
    - A Rust [String] in the decoder is kept as its UTF-8 bytes (the decoder
      builds it with [push_str] of byte slices); everywhere else a [String]
      is the sequence of its [char]s (Unicode scalar values, [list Z]), and
      [as_bytes] gives its UTF-8 encoding.
    - The registry [Mutex<HashMap<String, PtySession>>] is a [gmap] plus
      the mutex's poison flag; every command is one critical section.
    - The outcome the OS gives to each fallible call (opening the PTY,
      spawning, PTY writes, recording-file writes) is an argument of the
      command, so every theorem holds for every behaviour of the OS; a
      writer is observed through the list of operations issued on it.
    - [eprintln!] is a diagnostic without effect on the state; a panic
      under the registry lock is represented only by the poison flag. *)

From Stdlib Require Import ZArith Lia.
From stdpp Require Import base list gmap strings pretty.

Open Scope Z_scope.

(* ------------------------------------------------------------------ *)
(** ** UTF-8 validation (core::str::from_utf8 / run_utf8_validation) *)

Module Utf8.

(** [core::str::utf8_char_width]: width announced by a leading byte,
    0 for bytes that can never start a sequence. *)
Definition utf8_char_width (b : Z) : nat :=
  if b <? 0x80 then 1%nat
  else if b <? 0xC2 then 0%nat
  else if b <? 0xE0 then 2%nat
  else if b <? 0xF0 then 3%nat
  else if b <? 0xF5 then 4%nat
  else 0%nat.

(** [next!() as i8 >= -64] is the test "not a continuation byte";
    a continuation byte is one of 0x80..0xBF. *)
Definition is_cont (b : Z) : bool := (0x80 <=? b) && (b <? 0xC0).

(** Second-byte ranges of 3-byte sequences:
    (E0, A0..BF) | (E1..EC, 80..BF) | (ED, 80..9F) | (EE..EF, 80..BF). *)
Definition second_ok3 (first b : Z) : bool :=
  if first =? 0xE0 then (0xA0 <=? b) && (b <=? 0xBF)
  else if (0xE1 <=? first) && (first <=? 0xEC) then (0x80 <=? b) && (b <=? 0xBF)
  else if first =? 0xED then (0x80 <=? b) && (b <=? 0x9F)
  else if (0xEE <=? first) && (first <=? 0xEF) then (0x80 <=? b) && (b <=? 0xBF)
  else false.

(** Second-byte ranges of 4-byte sequences:
    (F0, 90..BF) | (F1..F3, 80..BF) | (F4, 80..8F). *)
Definition second_ok4 (first b : Z) : bool :=
  if first =? 0xF0 then (0x90 <=? b) && (b <=? 0xBF)
  else if (0xF1 <=? first) && (first <=? 0xF3) then (0x80 <=? b) && (b <=? 0xBF)
  else if first =? 0xF4 then (0x80 <=? b) && (b <=? 0x8F)
  else false.

(** Outcome of one iteration of the validation loop at the front of the
    remaining input: a complete character of [n] bytes, an invalid
    sequence ([err!(Some(l))]), input ending inside a sequence that is
    valid so far ([err!(None)] from [next!()]), or the end of input. *)
Inductive Utf8Step :=
| StepChar (n : nat)
| StepBad (l : nat)
| StepShort
| StepEnd.

(** One iteration of [run_utf8_validation]'s loop body. *)
Definition char_step (v : list Z) : Utf8Step :=
  match v with
  | [] => StepEnd
  | first :: r1 =>
    if first >=? 128 then
      match utf8_char_width first with
      | 2%nat =>
        match r1 with
        | [] => StepShort
        | b1 :: _ => if is_cont b1 then StepChar 2 else StepBad 1
        end
      | 3%nat =>
        match r1 with
        | [] => StepShort
        | b1 :: r2 =>
          if second_ok3 first b1 then
            match r2 with
            | [] => StepShort
            | b2 :: _ => if is_cont b2 then StepChar 3 else StepBad 2
            end
          else StepBad 1
        end
      | 4%nat =>
        match r1 with
        | [] => StepShort
        | b1 :: r2 =>
          if second_ok4 first b1 then
            match r2 with
            | [] => StepShort
            | b2 :: r3 =>
              if is_cont b2 then
                match r3 with
                | [] => StepShort
                | b3 :: _ => if is_cont b3 then StepChar 4 else StepBad 3
                end
              else StepBad 2
            end
          else StepBad 1
        end
      | _ => StepBad 1
      end
    else StepChar 1
  end.

(** [Result<&str, Utf8Error>]: [Utf8Err valid_up_to error_len]. *)
Inductive Utf8Result :=
| Utf8Ok
| Utf8Err (valid_up_to : nat) (error_len : option nat).

Definition shift (n : nat) (r : Utf8Result) : Utf8Result :=
  match r with
  | Utf8Ok => Utf8Ok
  | Utf8Err v el => Utf8Err (n + v) el
  end.

(** The validation loop; every iteration that goes on consumes at least one
    byte, so [S (length v)] rounds are enough (see [from_utf8_unfold]). *)
Fixpoint validate (fuel : nat) (v : list Z) : Utf8Result :=
  match fuel with
  | O => Utf8Ok
  | S f =>
    match char_step v with
    | StepEnd => Utf8Ok
    | StepChar n => shift n (validate f (drop n v))
    | StepBad l => Utf8Err 0 (Some l)
    | StepShort => Utf8Err 0 None
    end
  end.

(** [std::str::from_utf8]. *)
Definition from_utf8 (v : list Z) : Utf8Result := validate (S (length v)) v.

(** U+FFFD as UTF-8. *)
Definition replacement_char : list Z := [0xEF; 0xBF; 0xBD].

(** [String::from_utf8_lossy] (via [Utf8Chunks]): valid characters are
    copied, each invalid sequence becomes one U+FFFD, and an incomplete
    sequence at the end becomes one U+FFFD. *)
Fixpoint lossy (fuel : nat) (v : list Z) : list Z :=
  match fuel with
  | O => []
  | S f =>
    match char_step v with
    | StepEnd => []
    | StepChar n => take n v ++ lossy f (drop n v)
    | StepBad l => replacement_char ++ lossy f (drop l v)
    | StepShort => replacement_char
    end
  end.

Definition from_utf8_lossy (v : list Z) : list Z := lossy (S (length v)) v.

End Utf8.

(* ------------------------------------------------------------------ *)
(** ** Text: chars, their UTF-8 encoding, whitespace *)

Module Text.

(** UTF-8 encoding of one Unicode scalar value ([char::encode_utf8]). *)
Definition encode_utf8 (c : Z) : list Z :=
  if c <? 0x80 then [c]
  else if c <? 0x800 then [0xC0 + c / 64; 0x80 + c mod 64]
  else if c <? 0x10000 then
    [0xE0 + c / 4096; 0x80 + (c / 64) mod 64; 0x80 + c mod 64]
  else
    [0xF0 + c / 262144; 0x80 + (c / 4096) mod 64; 0x80 + (c / 64) mod 64;
     0x80 + c mod 64].

(** [str::as_bytes]. *)
Definition as_bytes (s : list Z) : list Z := concat (map encode_utf8 s).

(** [str::len]: length in bytes. *)
Definition str_len (s : list Z) : nat := length (as_bytes s).

(** [char::is_whitespace]: the White_Space property. *)
Definition is_whitespace (c : Z) : bool :=
  ((0x09 <=? c) && (c <=? 0x0D)) || (c =? 0x20) || (c =? 0x85) || (c =? 0xA0) ||
  (c =? 0x1680) || ((0x2000 <=? c) && (c <=? 0x200A)) ||
  (c =? 0x2028) || (c =? 0x2029) || (c =? 0x202F) || (c =? 0x205F) ||
  (c =? 0x3000).

Fixpoint trim_start (s : list Z) : list Z :=
  match s with
  | [] => []
  | c :: r => if is_whitespace c then trim_start r else s
  end.

(** [str::trim]. *)
Definition trim (s : list Z) : list Z := rev (trim_start (rev (trim_start s))).

(** [str::contains(char)]. *)
Definition contains (s : list Z) (c : Z) : bool := existsb (fun x => x =? c) s.

(** A Rocq string literal as a list of chars (ASCII only). *)
Definition chars (s : string) : list Z :=
  map (fun a => Z.of_nat (Ascii.nat_of_ascii a)) (String.list_ascii_of_string s).

End Text.

(* ------------------------------------------------------------------ *)
(** ** Streaming decoder of the output pump (pty.rs, decode_utf8_stream) *)

Module Stream.
Import Utf8.

(** The [while idx < carry.len()] loop; [out] is the [String] built so
    far, as bytes.  Each round that goes on advances [idx] by at least one,
    so [S (length carry)] rounds are enough. *)
Fixpoint decode_loop (fuel : nat) (carry : list Z) (idx : nat) (out : list Z)
  : list Z * nat :=
  match fuel with
  | O => (out, idx)
  | S fuel' =>
    if (idx <? length carry)%nat then
      match from_utf8 (drop idx carry) with
      | Utf8Ok => (out ++ drop idx carry, length carry)
      | Utf8Err valid error_len =>
        let '(out, idx) :=
          if (0 <? valid)%nat
          then (out ++ take valid (drop idx carry), (idx + valid)%nat)
          else (out, idx) in
        match error_len with
        | None => (out, idx)
        | Some len =>
          decode_loop fuel' carry (Nat.min (idx + len) (length carry))
            (out ++ replacement_char)
        end
      end
    else (out, idx)
  end.

(** [decode_utf8_stream(carry, chunk)]: returns the decoded text and the
    new contents of [carry]. *)
Definition decode_utf8_stream (carry chunk : list Z) : list Z * list Z :=
  match chunk with
  | [] => ([], carry)
  | _ =>
    let carry := carry ++ chunk in
    let '(out, idx) := decode_loop (S (length carry)) carry 0 [] in
    (out, if (0 <? idx)%nat then drop idx carry else carry)
  end.

(** The carry holds nothing, or the leading bytes of one UTF-8 sequence
    that is valid so far but incomplete. *)
Definition incomplete_prefix (carry : list Z) : Prop :=
  carry = [] \/ from_utf8 carry = Utf8Err 0 None.

(** Carry after feeding a sequence of read chunks to a fresh pump. *)
Fixpoint carry_after (carry : list Z) (chunks : list (list Z)) : list Z :=
  match chunks with
  | [] => carry
  | c :: cs => carry_after (decode_utf8_stream carry c).2 cs
  end.

(** [if !data.is_empty() { window.emit("pty-output", ..) }]: the texts
    emitted for one decoded piece. *)
Definition emit_nonempty (data : list Z) : list (list Z) :=
  if bool_decide (data = []) then [] else [data].

(** The [data] of every [pty-output] event the output pump of
    [create_session] emits, in order, for a stream whose reads return
    [chunks] and then end (a read of 0 bytes or an error): one event per
    non-empty [decode_utf8_stream] text, then at end of stream
    [String::from_utf8_lossy] of a non-empty carry, if non-empty. *)
Fixpoint pump_events (carry : list Z) (chunks : list (list Z)) : list (list Z) :=
  match chunks with
  | [] => if bool_decide (carry = []) then [] else emit_nonempty (from_utf8_lossy carry)
  | c :: cs =>
    let '(data, carry') := decode_utf8_stream carry c in
    emit_nonempty data ++ pump_events carry' cs
  end.

End Stream.

(* ------------------------------------------------------------------ *)
(** ** Recording ids (recording.rs, sanitize_recording_id) *)

Module RecordingId.
Import Text.

(** [char::is_ascii_alphanumeric]. *)
Definition is_ascii_alphanumeric (c : Z) : bool :=
  ((48 <=? c) && (c <=? 57)) || ((65 <=? c) && (c <=? 90)) ||
  ((97 <=? c) && (c <=? 122)).

(** [let ok = ch.is_ascii_alphanumeric() || ch == '-' || ch == '_']. *)
Definition id_char_ok (ch : Z) : bool :=
  is_ascii_alphanumeric ch || (ch =? 45) || (ch =? 95).

Definition sanitize_recording_id (input : list Z) : list Z :=
  let trimmed := trim input in
  match trimmed with
  | [] => chars "recording"
  | _ =>
    let out := map (fun ch => if id_char_ok ch then ch else 95) (take 120 trimmed) in
    match out with
    | [] => chars "recording"
    | _ => out
    end
  end.

End RecordingId.

(* ------------------------------------------------------------------ *)
(** ** Session registry, recorder and commands (pty.rs) *)

Module Pty.
Import Text RecordingId.

(** [Result<A, String>] of a command. *)
Inductive result (A : Type) :=
| Ok (a : A)
| Err (e : list Z).
Arguments Ok {A} a.
Arguments Err {A} e.

(** Operations issued on a writer ([write_all] of some bytes, [flush]),
    in order: the observable history of a [Write] handle. *)
Inductive WriterOp :=
| WWrite (bytes : list Z)
| WFlush.

Global Instance WriterOp_eq_dec : EqDecision WriterOp.
Proof. solve_decision. Defined.

(** [SessionRecording]; instants are milliseconds on the monotonic clock,
    [rec_writer] is the history of the [BufWriter<File>]. *)
Record SessionRecording := mkRecording {
  rec_id : list Z;
  rec_writer : list WriterOp;
  started_at : N;
  last_flush : N;
  unflushed_bytes : N
}.

(** [PtySession]; the master and child handles are not modelled (they
    only serve resize, kill and wait), [pty_writer] is the history of the
    PTY writer. *)
Record PtySession := mkSession {
  name : list Z;
  command : list Z;
  pty_writer : list WriterOp;
  recording : option SessionRecording
}.

(** [AppStateInner]: [next_id: AtomicU64] and
    [sessions: Mutex<HashMap<String, PtySession>>], with the mutex's
    poison flag (set when a thread panicked while holding the lock). *)
Record AppState := mkState {
  next_id : N;
  sessions : gmap (list Z) PtySession;
  poisoned : bool
}.

(** [AppState::default()]. *)
Definition initial_state : AppState := mkState 0 ∅ false.

Definition set_sessions (st : AppState) (m : gmap (list Z) PtySession) : AppState :=
  mkState (next_id st) m (poisoned st).

Definition set_pty_writer (s : PtySession) (w : list WriterOp) : PtySession :=
  mkSession (name s) (command s) w (recording s).

Definition set_recording (s : PtySession) (r : option SessionRecording) : PtySession :=
  mkSession (name s) (command s) (pty_writer s) r.

(** [SessionInfo]. *)
Record SessionInfo := mkInfo {
  info_id : list Z;
  info_name : list Z;
  info_command : list Z;
  info_cwd : option (list Z)
}.

(** Decimal rendering of an integer ([Display] for integers). *)
Definition dec (n : N) : list Z := chars (pretty n).

(** *** Serialization of an input event (serde_json) *)

Definition hex_digit (d : Z) : Z := if d <? 10 then 48 + d else 87 + d.

(** serde_json's escaping of one char inside a JSON string. *)
Definition escape_char (c : Z) : list Z :=
  if c =? 34 then [92; 34]
  else if c =? 92 then [92; 92]
  else if c =? 8 then [92; 98]
  else if c =? 12 then [92; 102]
  else if c =? 10 then [92; 110]
  else if c =? 13 then [92; 114]
  else if c =? 9 then [92; 116]
  else if c <? 32 then [92; 117; 48; 48; hex_digit (c / 16); hex_digit (c mod 16)]
  else [c].

Definition json_string (s : list Z) : list Z :=
  [34] ++ concat (map escape_char s) ++ [34].

(** [serde_json::to_string(&RecordingLineV1::Input(RecordingEventV1 { t, data }))]:
    the internally tagged enum gives {"type":"input","t":T,"data":"..."}.
    Serializing this type cannot fail, so the [map_err] branch of the
    source is dead and not represented. *)
Definition input_line_json (t : N) (data : list Z) : list Z :=
  [123] ++ json_string (chars "type") ++ [58] ++ json_string (chars "input") ++
  [44] ++ json_string (chars "t") ++ [58] ++ dec t ++
  [44] ++ json_string (chars "data") ++ [58] ++ json_string data ++ [125].

(** *** record_user_input *)

(** [rec.writer.write_all(bytes)]; [ok] is the outcome the OS gives. *)
Definition rec_write_all (rec : SessionRecording) (bytes : list Z) (ok : bool)
  : SessionRecording * result unit :=
  if ok then
    (mkRecording (rec_id rec) (rec_writer rec ++ [WWrite bytes]) (started_at rec)
       (last_flush rec) (unflushed_bytes rec), Ok tt)
  else (rec, Err (chars "write failed")).

(** [record_user_input(rec, data)] at clock reading [now]; [json_ok] and
    [newline_ok] are the outcomes of its two [write_all] calls.  The
    recording is updated in place, so it is returned with the result. *)
Definition record_user_input (rec : SessionRecording) (data : list Z) (now : N)
    (json_ok newline_ok : bool) : SessionRecording * result unit :=
  let t := (now - started_at rec)%N in
  let json := input_line_json t data in
  match rec_write_all rec (as_bytes json) json_ok with
  | (rec, Err e) => (rec, Err e)
  | (rec, Ok _) =>
    match rec_write_all rec [10] newline_ok with
    | (rec, Err e) => (rec, Err e)
    | (rec, Ok _) =>
      let unflushed := (unflushed_bytes rec + N.of_nat (str_len json) + 1)%N in
      let should_flush :=
        contains data 10 || contains data 13 || (16384 <=? unflushed)%N ||
        (1500 <=? now - last_flush rec)%N in
      if should_flush then
        (mkRecording (rec_id rec) (rec_writer rec ++ [WFlush]) (started_at rec) now 0,
         Ok tt)
      else
        (mkRecording (rec_id rec) (rec_writer rec) (started_at rec)
           (last_flush rec) unflushed, Ok tt)
    end
  end.

(** *** write_to_session *)

(** Outcomes the OS gives to the writes of one [write_to_session] call. *)
Record WriteIo := mkWriteIo {
  pty_ok : bool;       (* s.writer.write_all(data) *)
  json_ok : bool;      (* recording: write_all(json) *)
  newline_ok : bool    (* recording: write_all("\n") *)
}.

(** [write_to_session(id, data, source)].  A failed PTY write returns
    before anything is recorded; [eprintln!] is a diagnostic with no
    effect on the state. *)
Definition write_to_session (st : AppState) (id data : list Z)
    (source : option (list Z)) (now : N) (io : WriteIo) : AppState * result unit :=
  if poisoned st then (st, Err (chars "state poisoned")) else
  match sessions st !! id with
  | None => (st, Err (chars "unknown session"))
  | Some s =>
    let bytes := as_bytes data in
    if negb (pty_ok io) then (st, Err (chars "write failed")) else
    let s := set_pty_writer s (pty_writer s ++ [WWrite bytes; WFlush]) in
    let is_user := bool_decide (source = Some (chars "user")) in
    if is_user then
      match recording s with
      | None => (set_sessions st (<[id := s]> (sessions st)), Ok tt)
      | Some rec =>
        match record_user_input rec data now (json_ok io) (newline_ok io) with
        | (rec, Ok _) =>
          (set_sessions st (<[id := set_recording s (Some rec)]> (sessions st)), Ok tt)
        | (_, Err _) =>
          (set_sessions st (<[id := set_recording s None]> (sessions st)), Ok tt)
        end
      end
    else (set_sessions st (<[id := s]> (sessions st)), Ok tt)
  end.

(** *** close_session and the end of the output pump *)

(** [close_session(id)]: the removed session's child is killed and waited
    for on a detached thread, which does not touch the registry. *)
Definition close_session (st : AppState) (id : list Z) : AppState * result unit :=
  if poisoned st then (st, Err (chars "state poisoned")) else
  match sessions st !! id with
  | None => (st, Ok tt)
  | Some _ => (set_sessions st (delete id (sessions st)), Ok tt)
  end.

(** Reaping in the output-pump thread after end of stream. *)
Definition pump_exit (st : AppState) (id : list Z) : AppState :=
  if poisoned st then st else set_sessions st (delete id (sessions st)).

(** *** unique_name *)

(** The names held by the registry ([existing.values().map(|s| &s.name)]). *)
Definition taken_names (existing : gmap (list Z) PtySession) : list (list Z) :=
  name <$> (map_to_list existing).*2.

(** [format!("{base}-{n}")]. *)
Definition candidate (base : list Z) (n : N) : list Z := base ++ [45] ++ dec n.

(** The loop [n = 2, 3, ...] of [unique_name], with fuel; [unique_name]
    gives it one step per taken name, which is enough (proved below). *)
Fixpoint probe (taken : list (list Z)) (base : list Z) (n : N) (fuel : nat) : list Z :=
  match fuel with
  | O => candidate base n
  | S f =>
    if decide (candidate base n ∈ taken) then probe taken base (n + 1)%N f
    else candidate base n
  end.

Definition unique_name (existing : gmap (list Z) PtySession) (base : list Z) : list Z :=
  let taken := taken_names existing in
  if decide (base ∈ taken) then probe taken base 2 (length taken) else base.

(** *** create_session (unix build) *)

(** What [create_session] reads from the host: the environment
    variables [SHELL] and [HOME], [Path::is_dir] (a relative path is
    resolved against the process's working directory) and
    [find_bundled_nu()]. *)
Record HostEnv := mkHostEnv {
  env_shell : option (list Z);
  env_home : option (list Z);
  is_dir : list Z -> bool;
  bundled_nu : option (list Z)
}.

(** How the PTY calls of one [create_session] end. *)
Inductive SpawnOutcome :=
| OpenPtyFailed
| SpawnFailed
| CloneReaderFailed
| TakeWriterFailed
| Spawned.

(** The [cwd] computation of [create_session]. *)
Definition resolve_cwd (env : HostEnv) (cwd : option (list Z)) : option (list Z) :=
  let requested :=
    match cwd with
    | Some s =>
      let s := trim s in
      if negb (bool_decide (s = [])) && is_dir env s then Some s else None
    | None => None
    end in
  match requested with
  | Some s => Some s
  | None =>
    match env_home env with
    | Some h => if is_dir env h then Some h else None
    | None => None
    end
  end.

(** [(program, args, shown_command, use_nu)]. *)
Definition launch_plan (env : HostEnv) (command : list Z)
  : list Z * list (list Z) * list Z * bool :=
  let shell := default (chars "/bin/sh") (env_shell env) in
  if bool_decide (command = []) then
    match bundled_nu env with
    | Some nu => (nu, [], chars "nu", true)
    | None => (shell, [chars "-l"], shell ++ chars " -l", false)
    end
  else (shell, [chars "-lc"; command], shell ++ chars " -lc " ++ command, false).

(** [fetch_add(1)] on an [AtomicU64] wraps around. *)
Definition next_id_after (n : N) : N := ((n + 1) mod 2 ^ 64)%N.

(** [create_session(name, command, cwd, ..)].  Terminal size, the child's
    environment and the output pump's events are not modelled; the pump's
    removal of the session at end of stream is [pump_exit]. *)
Definition create_session (env : HostEnv) (outcome : SpawnOutcome) (st : AppState)
    (name_arg command_arg cwd_arg : option (list Z)) : AppState * result SessionInfo :=
  let command := trim (default [] command_arg) in
  let is_shell := bool_decide (command = []) in
  let cwd := resolve_cwd env cwd_arg in
  let '(_, _, shown_command, _) := launch_plan env command in
  match outcome with
  | OpenPtyFailed => (st, Err (chars "openpty failed"))
  | _ =>
    let id := dec (next_id st) in
    let st := mkState (next_id_after (next_id st)) (sessions st) (poisoned st) in
    match outcome with
    | SpawnFailed => (st, Err (chars "spawn failed"))
    | CloneReaderFailed => (st, Err (chars "clone reader failed"))
    | TakeWriterFailed => (st, Err (chars "take writer failed"))
    | _ =>
      if poisoned st then (st, Err (chars "state poisoned")) else
      let base_name :=
        default (if is_shell then chars "shell" else chars "agent") name_arg in
      let base_trimmed := trim base_name in
      let base_trimmed :=
        if bool_decide (base_trimmed = []) then chars "session" else base_trimmed in
      let final_name := unique_name (sessions st) base_trimmed in
      let s := mkSession final_name shown_command [] None in
      (set_sessions st (<[id := s]> (sessions st)),
       Ok (mkInfo id final_name shown_command cwd))
    end
  end.

(** *** Sequences of registry operations *)

Inductive Call :=
| CallCreate (env : HostEnv) (outcome : SpawnOutcome) (name_arg command_arg cwd_arg : option (list Z))
| CallWrite (id data : list Z) (source : option (list Z)) (now : N) (io : WriteIo)
| CallClose (id : list Z)
| CallExit (id : list Z).

Definition run_call (st : AppState) (c : Call) : AppState :=
  match c with
  | CallCreate env o n c d => (create_session env o st n c d).1
  | CallWrite id data src now io => (write_to_session st id data src now io).1
  | CallClose id => (close_session st id).1
  | CallExit id => pump_exit st id
  end.

Definition run_calls (st : AppState) (cs : list Call) : AppState := foldl run_call st cs.

(** The session names of a registry, in key order. *)
Definition session_names (st : AppState) : list (list Z) :=
  name <$> (map_to_list (sessions st)).*2.

(** No two sessions of a registry share a name. *)
Definition names_unique (m : gmap (list Z) PtySession) : Prop :=
  forall i j si sj, m !! i = Some si -> m !! j = Some sj -> name si = name sj -> i = j.

(** A recording fed successive user inputs [(data, clock reading)], every
    write succeeding. *)
Fixpoint record_all (rec : SessionRecording) (inputs : list (list Z * N)) : SessionRecording :=
  match inputs with
  | [] => rec
  | (d, t) :: rest => record_all (record_user_input rec d t true true).1 rest
  end.

End Pty.

(* ------------------------------------------------------------------ *)
(** ** Shell quoting for the zsh startup files (pty.rs, sh_single_quote) *)

Module Shell.

(** [sh_single_quote(s)]: [s] between single quotes, each ['] of [s]
    written as ['\''] (close the quotes, a backslash-quoted ['], reopen). *)
Definition sh_single_quote (s : list Z) : list Z :=
  [39] ++ concat (map (fun ch => if ch =? 39 then [39; 92; 39; 39] else [ch]) s) ++ [39].

(** Reference reader, after POSIX (XCU 2.2, Quoting), of a shell word
    made of quoted text only.  Outside quotes a ['] opens a single-quoted
    segment and a [\] quotes the next char (before a newline it is a line
    continuation and both are removed); any other unquoted char is refused,
    since the shell could split on it, expand it or give it a meaning.
    Inside single quotes every char but ['] stands for itself and [']
    closes the segment.  [None]: an unterminated segment, a trailing [\]
    or a refused char. *)
Fixpoint sh_read_unquoted (v : list Z) : option (list Z) :=
  match v with
  | [] => Some []
  | 39 :: r => sh_read_quoted r
  | 92 :: 10 :: r => sh_read_unquoted r
  | 92 :: c :: r => option_map (cons c) (sh_read_unquoted r)
  | _ => None
  end
with sh_read_quoted (v : list Z) : option (list Z) :=
  match v with
  | [] => None
  | 39 :: r => sh_read_unquoted r
  | c :: r => option_map (cons c) (sh_read_quoted r)
  end.

End Shell.

(* ------------------------------------------------------------------ *)
(** ** Listing, recording start and stop, recording paths (pty.rs, recording.rs) *)

Module Commands.
Import Text RecordingId Pty.

(** The closure [|(id, s)| SessionInfo { .., cwd: None }] of [list_sessions]. *)
Definition info_of (e : list Z * PtySession) : SessionInfo :=
  let '(id, s) := e in mkInfo id (name s) (command s) None.

(** [list_sessions()]: one [SessionInfo] per registry entry, with
    [cwd: None].  [HashMap::iter] has no specified order; [map_to_list]
    stands for it, and the properties below do not depend on the order. *)
Definition list_sessions (st : AppState) : result (list SessionInfo) :=
  if poisoned st then Err (chars "state poisoned") else
  Ok (info_of <$> map_to_list (sessions st)).

(** [PathBuf::push] on unix, which [Path::join] applies to a copy of the
    path: an absolute component replaces the path; otherwise a separator
    is added first unless the path is empty or already ends with one. *)
Definition path_join (base comp : list Z) : list Z :=
  match comp with
  | 47 :: _ => comp
  | _ =>
    match last base with
    | None => comp
    | Some c => if c =? 47 then base ++ comp else base ++ [47] ++ comp
    end
  end.

(** [recording_file_path(window, recording_id)]; [app_data] is the result
    of [app_data_dir()]. *)
Definition recording_file_path (app_data : option (list Z)) (recording_id : list Z)
  : result (list Z) :=
  match app_data with
  | None => Err (chars "unknown app data dir")
  | Some d => Ok (path_join (path_join d (chars "recordings")) (recording_id ++ chars ".jsonl"))
  end.

(** [serde_json::to_string(&RecordingLineV1::Meta(RecordingMetaV1 { .. }))]
    with [schema_version: 1]: the tag first, then the fields in declaration
    order, camelCase, [None] as [null].  Serializing this type cannot fail,
    so the [map_err] branch of the source is dead and not represented. *)
Definition meta_line_json (created_at : N) (project_id session_persist_id : list Z)
    (cwd : option (list Z)) : list Z :=
  [123] ++ json_string (chars "type") ++ [58] ++ json_string (chars "meta") ++
  [44] ++ json_string (chars "schemaVersion") ++ [58] ++ dec 1%N ++
  [44] ++ json_string (chars "createdAt") ++ [58] ++ dec created_at ++
  [44] ++ json_string (chars "projectId") ++ [58] ++ json_string project_id ++
  [44] ++ json_string (chars "sessionPersistId") ++ [58] ++
  json_string session_persist_id ++
  [44] ++ json_string (chars "cwd") ++ [58] ++
  match cwd with Some c => json_string c | None => chars "null" end ++ [125].

(** What the host gives to the fallible calls of [start_session_recording]. *)
Record StartIo := mkStartIo {
  app_data_dir : option (list Z);  (* app_data_dir() *)
  create_dir_ok : bool;            (* fs::create_dir_all(dir) *)
  open_ok : bool;                  (* OpenOptions::new()...open(&path) *)
  meta_ok : bool;                  (* writer.write_all(json) *)
  meta_newline_ok : bool           (* writer.write_all("\n") *)
}.

(** [start_session_recording(id, recording_id, project_id,
    session_persist_id, cwd)]; [created_at] is [now_epoch_ms()],
    [started] and [last] the two [Instant::now()] readings.  The path is
    [<dir>/<safe_id>.jsonl], whose [parent()] is [Some <dir>] (see
    [recording_file_path_shape]), so the ["invalid recording path"] branch
    is not represented; the outcome of the final [flush] is ignored by the
    source. *)
Definition start_session_recording (st : AppState)
    (id recording_id project_id session_persist_id : list Z) (cwd : option (list Z))
    (created_at started last : N) (io : StartIo) : AppState * result (list Z) :=
  let safe_id := sanitize_recording_id recording_id in
  if poisoned st then (st, Err (chars "state poisoned")) else
  match sessions st !! id with
  | None => (st, Err (chars "unknown session"))
  | Some s =>
    match recording s with
    | Some _ => (st, Err (chars "already recording"))
    | None =>
      match recording_file_path (app_data_dir io) safe_id with
      | Err e => (st, Err e)
      | Ok _ =>
        if negb (create_dir_ok io) then (st, Err (chars "create dir failed")) else
        if negb (open_ok io) then (st, Err (chars "open failed")) else
        let json := meta_line_json created_at project_id session_persist_id cwd in
        if negb (meta_ok io) then (st, Err (chars "write failed")) else
        if negb (meta_newline_ok io) then (st, Err (chars "write failed")) else
        let writer := [WWrite (as_bytes json); WWrite [10]; WFlush] in
        let rec := mkRecording safe_id writer started last 0 in
        (set_sessions st (<[id := set_recording s (Some rec)]> (sessions st)), Ok safe_id)
      end
    end
  end.

(** [stop_session_recording(id)]: the detached recording's writer is
    flushed and dropped; it is no longer part of the registry. *)
Definition stop_session_recording (st : AppState) (id : list Z)
  : AppState * result (option (list Z)) :=
  if poisoned st then (st, Err (chars "state poisoned")) else
  match sessions st !! id with
  | None => (st, Err (chars "unknown session"))
  | Some s =>
    match recording s with
    | None => (st, Ok None)
    | Some rec =>
      (set_sessions st (<[id := set_recording s None]> (sessions st)), Ok (Some (rec_id rec)))
    end
  end.

(** The commands that change the registry; [list_sessions] and
    [resize_session] do not. *)
Inductive Command :=
| CmdCall (c : Call)
| CmdStart (id recording_id project_id session_persist_id : list Z)
    (cwd : option (list Z)) (created_at started last : N) (io : StartIo)
| CmdStop (id : list Z).

Definition run_command (st : AppState) (c : Command) : AppState :=
  match c with
  | CmdCall c => run_call st c
  | CmdStart id r p sp cwd ca t1 t2 io =>
    (start_session_recording st id r p sp cwd ca t1 t2 io).1
  | CmdStop id => (stop_session_recording st id).1
  end.

Definition run_commands (st : AppState) (cs : list Command) : AppState :=
  foldl run_command st cs.

(** Bytes handed to [write_all] since the last [flush] of a writer. *)
Definition bytes_since_flush (ops : list WriterOp) : nat :=
  foldl (fun acc op => match op with WWrite b => (acc + length b)%nat | WFlush => 0%nat end)
    0%nat ops.

(** The recorder's counter [unflushed_bytes] is exact and below the
    16 KiB threshold. *)
Definition recording_accounted (rec : SessionRecording) : Prop :=
  unflushed_bytes rec = N.of_nat (bytes_since_flush (rec_writer rec)) /\
  (unflushed_bytes rec < 16384)%N.

Definition recordings_accounted (st : AppState) : Prop :=
  forall id s rec, sessions st !! id = Some s -> recording s = Some rec ->
  recording_accounted rec.

(** Every live session id is the decimal form of an id already handed out. *)
Definition ids_issued (st : AppState) : Prop :=
  forall id, is_Some (sessions st !! id) -> exists k, (k < next_id st)%N /\ id = dec k.

(** Chars that are not a newline, nor negative. *)
Definition line_safe (c : Z) : Prop := 0 <= c /\ c <> 10.

End Commands.

(* ------------------------------------------------------------------ *)
(** ** Reference reader of JSON strings (RFC 8259, section 7) *)

Module JsonRef.

(** A hexadecimal digit of a [\u] escape, either case. *)
Definition hex_val (c : Z) : option Z :=
  if (48 <=? c) && (c <=? 57) then Some (c - 48)
  else if (97 <=? c) && (c <=? 102) then Some (c - 87)
  else if (65 <=? c) && (c <=? 70) then Some (c - 55)
  else None.

Definition hex4 (a b c d : Z) : option Z :=
  match hex_val a, hex_val b, hex_val c, hex_val d with
  | Some w, Some x, Some y, Some z => Some (w * 4096 + x * 256 + y * 16 + z)
  | _, _, _, _ => None
  end.

(** The two-char escapes: a backslash followed by a quote, a backslash, a
    slash or one of b, f, n, r, t. *)
Definition simple_escape (e : Z) : option Z :=
  if e =? 34 then Some 34 else if e =? 92 then Some 92 else if e =? 47 then Some 47
  else if e =? 98 then Some 8 else if e =? 102 then Some 12 else if e =? 110 then Some 10
  else if e =? 114 then Some 13 else if e =? 116 then Some 9 else None.

Definition prepend (x : Z) (o : option (list Z * list Z)) : option (list Z * list Z) :=
  option_map (fun '(s, rest) => (x :: s, rest)) o.

(** The chars of a string after its opening quote, up to the closing
    quote; returns them and what follows.  Unescaped chars below U+0020
    are refused, a [\u] escape of a UTF-16 high surrogate must be followed
    by one of a low surrogate and the pair gives one char, and a lone
    surrogate is refused (as serde_json does). *)
Fixpoint json_read_chars (v : list Z) : option (list Z * list Z) :=
  match v with
  | [] => None
  | c :: r =>
    if c =? 34 then Some ([], r)
    else if c =? 92 then
      match r with
      | [] => None
      | e :: r1 =>
        match simple_escape e with
        | Some x => prepend x (json_read_chars r1)
        | None =>
          if e =? 117 then
            match r1 with
            | h1 :: h2 :: h3 :: h4 :: r2 =>
              match hex4 h1 h2 h3 h4 with
              | None => None
              | Some u =>
                if (0xD800 <=? u) && (u <=? 0xDBFF) then
                  match r2 with
                  | b :: k :: l1 :: l2 :: l3 :: l4 :: r3 =>
                    if (b =? 92) && (k =? 117) then
                      match hex4 l1 l2 l3 l4 with
                      | Some lo =>
                        if (0xDC00 <=? lo) && (lo <=? 0xDFFF)
                        then prepend (0x10000 + (u - 0xD800) * 1024 + (lo - 0xDC00))
                               (json_read_chars r3)
                        else None
                      | None => None
                      end
                    else None
                  | _ => None
                  end
                else if (0xDC00 <=? u) && (u <=? 0xDFFF) then None
                else prepend u (json_read_chars r2)
              end
            | _ => None
            end
          else None
        end
      end
    else if c <? 32 then None
    else prepend c (json_read_chars r)
  end.

(** A JSON string at the front of [v]: its chars and what follows it. *)
Definition json_read_string (v : list Z) : option (list Z * list Z) :=
  match v with
  | c :: r => if c =? 34 then json_read_chars r else None
  | [] => None
  end.

End JsonRef.

(* ------------------------------------------------------------------ *)
(** ** Loading a recording (recording.rs, load_recording) *)

Module Load.
Import Utf8 Text RecordingId Pty Commands.

(** A Unicode scalar value: what a Rust [char] can hold. *)
Definition scalar_ok (c : Z) : Prop := 0 <= c < 0xD800 \/ 0xE000 <= c <= 0x10FFFF.

(** *** Decoding ([core::str::validations::next_code_point], [str::chars]) *)

Definition CONT_MASK : Z := 0x3F.

Definition utf8_first_byte (byte width : Z) : Z := Z.land byte (Z.shiftr 0x7F width).

Definition utf8_acc_cont_byte (ch byte : Z) : Z :=
  Z.lor (Z.shiftl ch 6) (Z.land byte CONT_MASK).

(** [next_code_point] on the bytes of a [str]: the next char and the bytes
    after it.  The bytes are valid UTF-8, so the [unwrap_unchecked] calls
    always find a byte; a missing one ends the decoding here. *)
Definition next_code_point (v : list Z) : option (Z * list Z) :=
  match v with
  | [] => None
  | x :: r1 =>
    if x <? 128 then Some (x, r1) else
    let init := utf8_first_byte x 2 in
    match r1 with
    | [] => None
    | y :: r2 =>
      let ch := utf8_acc_cont_byte init y in
      if x >=? 0xE0 then
        match r2 with
        | [] => None
        | z :: r3 =>
          let y_z := utf8_acc_cont_byte (Z.land y CONT_MASK) z in
          let ch := Z.lor (Z.shiftl init 12) y_z in
          if x >=? 0xF0 then
            match r3 with
            | [] => None
            | w :: r4 => Some (Z.lor (Z.shiftl (Z.land init 7) 18) (utf8_acc_cont_byte y_z w), r4)
            end
          else Some (ch, r3)
        end
      else Some (ch, r2)
    end
  end.

(** [str::chars]: [next_code_point] until the bytes run out; [fuel]
    bounds the number of chars. *)
Fixpoint str_chars (fuel : nat) (v : list Z) : list Z :=
  match fuel with
  | O => []
  | S f =>
    match next_code_point v with
    | None => []
    | Some (c, r) => c :: str_chars f r
    end
  end.

(** [String::from_utf8]: the chars of the bytes when they are valid UTF-8. *)
Definition string_from_utf8 (v : list Z) : option (list Z) :=
  match from_utf8 v with
  | Utf8Ok => Some (str_chars (S (length v)) v)
  | Utf8Err _ _ => None
  end.

(** *** [BufRead::lines] *)

(** The pieces [read_line] returns: the bytes up to and including each
    newline, then the bytes after the last newline, if any. *)
Fixpoint read_line_chunks (cur v : list Z) : list (list Z) :=
  match v with
  | [] => if bool_decide (cur = []) then [] else [cur]
  | b :: r =>
    if b =? 10 then (cur ++ [b]) :: read_line_chunks [] r
    else read_line_chunks (cur ++ [b]) r
  end.

(** [Lines::next]: a trailing "\n", then a "\r" before it, is removed. *)
Definition strip_line_end (s : list Z) : list Z :=
  if bool_decide (last s = Some 10) then
    let s := removelast s in
    if bool_decide (last s = Some 13) then removelast s else s
  else s.

(** The items of [reader.lines()] over the contents [v] of a file: a line,
    or [None] for the error [read_line] gives on bytes that are not UTF-8. *)
Definition lines (v : list Z) : list (option (list Z)) :=
  map (fun chunk => strip_line_end <$> string_from_utf8 chunk) (read_line_chunks [] v).

(** *** The recording types *)

Record RecordingMetaV1 := mkMeta {
  schema_version : N;
  created_at : N;
  project_id : list Z;
  session_persist_id : list Z;
  cwd : option (list Z)
}.

Record RecordingEventV1 := mkEvent {
  t : N;
  data : list Z
}.

Inductive RecordingLineV1 :=
| Meta (m : RecordingMetaV1)
| Input (ev : RecordingEventV1).

Record LoadedRecordingV1 := mkLoaded {
  recording_id : list Z;
  meta : option RecordingMetaV1;
  events : list RecordingEventV1
}.

(** *** load_recording *)

(** The [for line in reader.lines()] loop; [parse] is
    [serde_json::from_str::<RecordingLineV1>], [None] for a parse error.
    The first meta record is kept, input events are collected in order,
    blank lines are skipped, and the first failing line ends the load. *)
Fixpoint load_lines (parse : list Z -> option RecordingLineV1)
    (ls : list (option (list Z))) (meta : option RecordingMetaV1)
    (events : list RecordingEventV1)
  : result (option RecordingMetaV1 * list RecordingEventV1) :=
  match ls with
  | [] => Ok (meta, events)
  | None :: _ => Err (chars "read failed")
  | Some line :: rest =>
    let trimmed := trim line in
    if bool_decide (trimmed = []) then load_lines parse rest meta events else
    match parse trimmed with
    | None => Err (chars "parse failed")
    | Some (Meta m) =>
      load_lines parse rest (match meta with None => Some m | Some _ => meta end) events
    | Some (Input ev) => load_lines parse rest meta (events ++ [ev])
    end
  end.

(** [load_recording(recording_id)]; [app_data] is the result of
    [app_data_dir()] and [file] the contents of the file at the path,
    [None] when [File::open] fails. *)
Definition load_recording (parse : list Z -> option RecordingLineV1)
    (app_data file : option (list Z)) (recording_id : list Z) : result LoadedRecordingV1 :=
  let safe_id := sanitize_recording_id recording_id in
  match recording_file_path app_data safe_id with
  | Err e => Err e
  | Ok _ =>
    match file with
    | None => Err (chars "open failed")
    | Some bytes =>
      match load_lines parse (lines bytes) None [] with
      | Err e => Err e
      | Ok (meta, events) => Ok (mkLoaded safe_id meta events)
      end
    end
  end.

(** A record line: braces at both ends, so [trim] keeps it whole and
    [lines] does not take its end for a carriage return. *)
Definition braced (l : list Z) : Prop := head l = Some 123 /\ last l = Some 125.

(** The bytes a writer's history hands to the file, in order. *)
Definition written (ops : list WriterOp) : list Z :=
  concat (map (fun op => match op with WWrite b => b | WFlush => [] end) ops).

End Load.

(* ================================================================== *)
(** * Properties *)

(* ------------------------------------------------------------------ *)
(** ** Facts about one validation step *)

Module Utf8Facts.
Import Utf8.

(** Case analysis on every test performed by [char_step] in hypothesis
    [H], then evaluation of the goal under the recorded outcomes. *)
Ltac step_cases H :=
  repeat (simpl in H;
    match type of H with
    | context [if ?c then _ else _] => destruct c eqn:?
    | context [match utf8_char_width ?b with _ => _ end] =>
        destruct (utf8_char_width b) as [|[|[|[|[|?]]]]] eqn:?
    end); try discriminate H.

Ltac step_eval :=
  simpl; repeat match goal with
  | E : ?c = _ |- context [?c] => rewrite E
  end; simpl.

Lemma char_step_char (v : list Z) (n : nat) :
  char_step v = StepChar n ->
  (1 <= n)%nat /\ (n <= length v)%nat /\
  forall s, char_step (take n v ++ s) = StepChar n.
Proof.
  intros H.
  destruct v as [|b0 [|b1 [|b2 [|b3 v]]]]; step_cases H;
    injection H as <-; (split; [lia | split; [simpl; lia | intros s; step_eval]]);
    try reflexivity.
Qed.

Lemma char_step_bad (v : list Z) (l : nat) :
  char_step v = StepBad l ->
  (1 <= l)%nat /\ (l <= length v)%nat /\
  (forall k, (1 <= k)%nat -> char_step (take (l + k) v) = StepBad l) /\
  (char_step (take l v) = StepShort \/ (l = 1%nat /\ char_step (take l v) = StepBad 1)).
Proof.
  intros H.
  destruct v as [|b0 [|b1 [|b2 [|b3 v]]]]; step_cases H;
    injection H as <-;
    (split; [lia | split; [simpl; lia | split]]);
    try (intros k Hk; destruct k as [|k]; [lia|]; step_eval; reflexivity);
    try (left; step_eval; reflexivity);
    try (right; split; [reflexivity | step_eval; reflexivity]).
Qed.

Lemma char_step_short_length (v : list Z) :
  char_step v = StepShort -> (1 <= length v <= 3)%nat.
Proof.
  intros H.
  destruct v as [|b0 [|b1 [|b2 [|b3 v]]]]; step_cases H; simpl; lia.
Qed.

Lemma char_step_end (v : list Z) : char_step v = StepEnd -> v = [].
Proof.
  intros H. destruct v as [|b0 [|b1 [|b2 [|b3 v]]]]; step_cases H; reflexivity.
Qed.


Lemma validate_fuel (f1 f2 : nat) (v : list Z) :
  (length v < f1)%nat -> (length v < f2)%nat -> validate f1 v = validate f2 v.
Proof.
  revert f2 v. induction f1 as [|f1 IH]; intros f2 v H1 H2; [lia|].
  destruct f2 as [|f2]; [lia|]. simpl.
  destruct (char_step v) eqn:E; try reflexivity.
  apply char_step_char in E as (? & ? & _).
  f_equal. apply IH; rewrite length_drop; lia.
Qed.

Lemma from_utf8_unfold (v : list Z) :
  from_utf8 v =
  match char_step v with
  | StepEnd => Utf8Ok
  | StepChar n => shift n (from_utf8 (drop n v))
  | StepBad l => Utf8Err 0 (Some l)
  | StepShort => Utf8Err 0 None
  end.
Proof.
  unfold from_utf8 at 1. simpl.
  destruct (char_step v) eqn:E; try reflexivity.
  apply char_step_char in E as (? & ? & _).
  f_equal. apply validate_fuel; rewrite length_drop; lia.
Qed.

Lemma lossy_fuel (f1 f2 : nat) (v : list Z) :
  (length v < f1)%nat -> (length v < f2)%nat -> lossy f1 v = lossy f2 v.
Proof.
  revert f2 v. induction f1 as [|f1 IH]; intros f2 v H1 H2; [lia|].
  destruct f2 as [|f2]; [lia|]. simpl.
  destruct (char_step v) eqn:E; try reflexivity.
  - apply char_step_char in E as (? & ? & _).
    f_equal. apply IH; rewrite length_drop; lia.
  - apply char_step_bad in E as (? & ? & _).
    rewrite (IH f2); [reflexivity | rewrite length_drop; lia ..].
Qed.

Lemma lossy_unfold (v : list Z) :
  from_utf8_lossy v =
  match char_step v with
  | StepEnd => []
  | StepChar n => take n v ++ from_utf8_lossy (drop n v)
  | StepBad l => replacement_char ++ from_utf8_lossy (drop l v)
  | StepShort => replacement_char
  end.
Proof.
  unfold from_utf8_lossy at 1. simpl.
  destruct (char_step v) eqn:E; try reflexivity.
  - apply char_step_char in E as (? & ? & _).
    f_equal. apply lossy_fuel; rewrite length_drop; lia.
  - apply char_step_bad in E as (? & ? & _).
    rewrite (lossy_fuel (length v) (S (length (drop l v))));
      [reflexivity | rewrite length_drop; lia ..].
Qed.

Lemma lossy_nil : from_utf8_lossy [] = [].
Proof. reflexivity. Qed.

(** Strong induction on the length of a byte list. *)
Lemma list_len_ind (P : list Z -> Prop) :
  (forall v, (forall w, (length w < length v)%nat -> P w) -> P v) ->
  forall v, P v.
Proof.
  intros step v. remember (length v) as n eqn:En.
  revert v En. induction (lt_wf n) as [n _ IH]; intros v ->.
  apply step. intros w Hw. eapply IH; [exact Hw | reflexivity].
Qed.

(** Valid input decodes to itself. *)
Lemma lossy_ok (v : list Z) : from_utf8 v = Utf8Ok -> from_utf8_lossy v = v.
Proof.
  induction v as [v IH] using list_len_ind. intros H.
  rewrite from_utf8_unfold in H. rewrite lossy_unfold.
  destruct (char_step v) eqn:E; try discriminate.
  - pose proof (char_step_char _ _ E) as (? & ? & _).
    destruct (from_utf8 (drop n v)) eqn:E2; [|discriminate].
    rewrite IH; [apply take_drop|rewrite length_drop; lia|exact E2].
  - apply char_step_end in E. subst. reflexivity.
Qed.

(** The valid prefix reported by [from_utf8] is made of whole characters:
    it decodes to itself in front of anything, and the error is reported
    again at offset 0 of the rest. *)
Lemma valid_prefix (v : list Z) (va : nat) (el : option nat) :
  from_utf8 v = Utf8Err va el ->
  (va <= length v)%nat /\ from_utf8 (drop va v) = Utf8Err 0 el /\
  forall s, from_utf8_lossy (take va v ++ s) = take va v ++ from_utf8_lossy s.
Proof.
  revert va. induction v as [v IH] using list_len_ind. intros va H.
  pose proof H as H0.
  rewrite from_utf8_unfold in H.
  destruct (char_step v) eqn:E; try discriminate.
  - pose proof (char_step_char _ _ E) as (Hn1 & Hn2 & Hloc).
    destruct (from_utf8 (drop n v)) as [|va' el'] eqn:E2; [discriminate|].
    simpl in H. injection H as <- <-.
    destruct (IH (drop n v) ltac:(rewrite length_drop; lia) va' E2)
      as (Hle & Hd & Hl).
    rewrite length_drop in Hle.
    split; [lia|]. split.
    + rewrite <- drop_drop. exact Hd.
    + intros s. rewrite <- take_take_drop, <- app_assoc.
      rewrite lossy_unfold, Hloc.
      rewrite take_app_length' by (rewrite length_take; lia).
      rewrite drop_app_length' by (rewrite length_take; lia).
      rewrite Hl, app_assoc. reflexivity.
  - injection H as <- <-. split; [lia|]. split; [exact H0|]. reflexivity.
  - injection H as <- <-. split; [lia|]. split; [exact H0|]. reflexivity.
Qed.

(** An invalid sequence of length [l]: the [l] bytes, followed by whatever
    came after them, decode to one U+FFFD and then the rest. *)
Lemma lossy_bad (r : list Z) (l k : nat) :
  char_step r = StepBad l ->
  from_utf8_lossy (take (l + k) r) =
  replacement_char ++ from_utf8_lossy (take k (drop l r)).
Proof.
  intros E. pose proof (char_step_bad _ _ E) as (Hl1 & Hl2 & Hk & Hs).
  destruct k as [|k].
  - rewrite Nat.add_0_r, take_0, lossy_nil, app_nil_r.
    rewrite lossy_unfold.
    destruct Hs as [-> | [-> ->]]; [reflexivity|].
    rewrite (drop_ge _ 1) by (rewrite length_take; lia). reflexivity.
  - rewrite lossy_unfold, Hk by lia.
    rewrite take_drop_commute. reflexivity.
Qed.

(** What [from_utf8] reports as an error at offset 0. *)
Lemma err_at_front (v : list Z) (el : option nat) :
  from_utf8 v = Utf8Err 0 el ->
  match el with
  | Some l => char_step v = StepBad l
  | None => char_step v = StepShort
  end.
Proof.
  rewrite from_utf8_unfold. destruct (char_step v) eqn:E; try discriminate.
  - pose proof (char_step_char _ _ E) as (Hn & _).
    destruct (from_utf8 (drop n v)); [discriminate|].
    simpl. intros Heq. injection Heq. lia.
  - intros Heq. injection Heq as <-. reflexivity.
  - intros Heq. injection Heq as <-. reflexivity.
Qed.

End Utf8Facts.

(* ------------------------------------------------------------------ *)
(** ** The decoding loop *)

Module StreamFacts.
Import Utf8 Utf8Facts Stream.

Lemma incomplete_prefix_length (c : list Z) :
  incomplete_prefix c -> (length c <= 3)%nat.
Proof.
  intros [-> | H]; [simpl; lia|].
  apply err_at_front, char_step_short_length in H. lia.
Qed.

(** Invariant of [decode_loop] started at [idx]: it stops at some [idx']
    past [idx], has appended the lossy decoding of the bytes between, and
    leaves behind an incomplete prefix. *)
Lemma decode_loop_spec (fuel : nat) (carry : list Z) (idx : nat) (out : list Z) :
  (idx <= length carry)%nat -> (length carry - idx < fuel)%nat ->
  let '(out', idx') := decode_loop fuel carry idx out in
  (idx <= idx' <= length carry)%nat /\
  out' = out ++ from_utf8_lossy (take (idx' - idx) (drop idx carry)) /\
  incomplete_prefix (drop idx' carry).
Proof.
  revert idx out. induction fuel as [|fuel IH]; intros idx out Hidx Hf; [lia|].
  simpl. destruct (idx <? length carry)%nat eqn:Hlt.
  2:{ apply Nat.ltb_ge in Hlt. split; [lia|].
      rewrite Nat.sub_diag, take_0, lossy_nil, app_nil_r. split; [reflexivity|].
      left. apply drop_ge; lia. }
  apply Nat.ltb_lt in Hlt.
  destruct (from_utf8 (drop idx carry)) as [|va el] eqn:Ev.
  - split; [lia|]. split.
    + rewrite take_ge by (rewrite length_drop; lia).
      rewrite (lossy_ok _ Ev). reflexivity.
    + left. apply drop_ge; lia.
  - destruct (valid_prefix _ _ _ Ev) as (Hva & Hrest & Hpre).
    rewrite length_drop in Hva.
    assert (Hpair : (if (0 <? va)%nat
                     then (out ++ take va (drop idx carry), (idx + va)%nat)
                     else (out, idx))
                    = (out ++ take va (drop idx carry), (idx + va)%nat)).
    { destruct va; simpl; [rewrite take_0, app_nil_r, Nat.add_0_r|]; reflexivity. }
    rewrite Hpair. clear Hpair.
    rewrite drop_drop in Hrest.
    destruct el as [len|].
    + pose proof (err_at_front _ _ Hrest) as Hbad. simpl in Hbad.
      pose proof (char_step_bad _ _ Hbad) as (Hl1 & Hl2 & _).
      rewrite length_drop in Hl2.
      rewrite Nat.min_l by lia.
      specialize (IH (idx + va + len)%nat
                     ((out ++ take va (drop idx carry)) ++ replacement_char)
                     ltac:(lia) ltac:(lia)).
      destruct (decode_loop fuel carry (idx + va + len)%nat _) as [out' idx'].
      destruct IH as (Hb & Ho & Hc).
      split; [lia|]. split; [|exact Hc].
      rewrite Ho.
      replace (idx' - idx)%nat with (va + (len + (idx' - (idx + va + len))))%nat by lia.
      rewrite <- take_take_drop, Hpre, drop_drop, lossy_bad by exact Hbad.
      rewrite drop_drop.
      rewrite <- !app_assoc. repeat f_equal; lia.
    + split; [lia|]. split.
      * replace (idx + va - idx)%nat with va by lia.
        rewrite <- (app_nil_r (take va (drop idx carry))) at 2.
        rewrite Hpre, lossy_nil, app_nil_r. reflexivity.
      * right. exact Hrest.
Qed.

(** One call of [decode_utf8_stream] from a well-formed carry. *)
Lemma decode_spec (carry chunk : list Z) :
  incomplete_prefix carry ->
  let '(out, carry') := decode_utf8_stream carry chunk in
  incomplete_prefix carry' /\
  exists consumed, carry ++ chunk = consumed ++ carry' /\
                   out = from_utf8_lossy consumed.
Proof.
  intros Hc. destruct chunk as [|b chunk].
  - simpl. split; [exact Hc|]. exists []. rewrite app_nil_r. split; reflexivity.
  - unfold decode_utf8_stream.
    set (buf := carry ++ b :: chunk).
    pose proof (decode_loop_spec (S (length buf)) buf 0 [] ltac:(lia) ltac:(lia))
      as Hl.
    destruct (decode_loop (S (length buf)) buf 0 []) as [out idx].
    destruct Hl as (Hb & Ho & Hi).
    assert (Hd : (if (0 <? idx)%nat then drop idx buf else buf) = drop idx buf).
    { destruct idx; reflexivity. }
    rewrite Hd. split; [exact Hi|].
    exists (take idx buf). split.
    + symmetry. apply take_drop.
    + rewrite Ho, drop_0, Nat.sub_0_r. reflexivity.
Qed.

Lemma carry_after_ok (chunks : list (list Z)) (c : list Z) :
  incomplete_prefix c -> incomplete_prefix (carry_after c chunks).
Proof.
  revert c. induction chunks as [|ch chunks IH]; intros c Hc; simpl; [exact Hc|].
  apply IH. pose proof (decode_spec c ch Hc) as Hs.
  destruct (decode_utf8_stream c ch) as [out c']. exact (proj1 Hs).
Qed.

Lemma decode_loop_ok (f : nat) (carry : list Z) (idx : nat) (out : list Z) :
  (idx < length carry)%nat -> from_utf8 (drop idx carry) = Utf8Ok ->
  decode_loop (S f) carry idx out = (out ++ drop idx carry, length carry).
Proof.
  intros H1 H2. simpl. rewrite (proj2 (Nat.ltb_lt _ _) H1), H2. reflexivity.
Qed.

Lemma decode_loop_bad (f : nat) (carry : list Z) (idx len : nat) (out : list Z) :
  (idx < length carry)%nat -> from_utf8 (drop idx carry) = Utf8Err 0 (Some len) ->
  decode_loop (S f) carry idx out =
  decode_loop f carry (Nat.min (idx + len) (length carry)) (out ++ replacement_char).
Proof.
  intros H1 H2. simpl. rewrite (proj2 (Nat.ltb_lt _ _) H1), H2. reflexivity.
Qed.

Lemma decode_loop_short (f : nat) (carry : list Z) (idx : nat) (out : list Z) :
  (idx < length carry)%nat -> from_utf8 (drop idx carry) = Utf8Err 0 None ->
  decode_loop (S f) carry idx out = (out, idx).
Proof.
  intros H1 H2. simpl. rewrite (proj2 (Nat.ltb_lt _ _) H1), H2. reflexivity.
Qed.

(** Case analysis on the integer comparisons left in the goal. *)
(** Split on the first comparison of the goal, pruning impossible cases. *)
Ltac zcmp_split :=
  lazymatch goal with
  | |- context [Z.geb ?x ?y] => rewrite (Z.geb_leb x y)
  | |- context [Z.eqb ?x ?y] => case (Z.eqb_spec x y); intro
  | |- context [Z.ltb ?x ?y] => case (Z.ltb_spec x y); intro
  | |- context [Z.leb ?x ?y] => case (Z.leb_spec x y); intro
  end.

Ltac zcmp := repeat (zcmp_split; simpl; try (exfalso; lia)); try reflexivity.

(** The four bytes of a supplementary-plane code point: the first announces
    a 4-byte sequence and is no continuation byte, and together they form
    one character. *)
Lemma encode4_steps (cp : Z) :
  0x10000 <= cp <= 0x10FFFF ->
  exists b0 b1 b2 b3, Text.encode_utf8 cp = [b0; b1; b2; b3] /\
    char_step [b0] = StepShort /\ is_cont b0 = false /\
    forall r, char_step (b0 :: b1 :: b2 :: b3 :: r) = StepChar 4.
Proof.
  intros H. unfold Text.encode_utf8.
  rewrite (proj2 (Z.ltb_ge cp 0x80)), (proj2 (Z.ltb_ge cp 0x800)),
    (proj2 (Z.ltb_ge cp 0x10000)) by lia.
  eexists _, _, _, _. split; [reflexivity|].
  assert (Hq : cp / 262144 = 0 \/ cp / 262144 = 1 \/ cp / 262144 = 2 \/
               cp / 262144 = 3 \/ cp / 262144 = 4) by (Z.div_mod_to_equations; lia).
  assert (H1 : 0 <= (cp / 4096) mod 64 < 64) by (apply Z.mod_pos_bound; lia).
  assert (H2 : 0 <= (cp / 64) mod 64 < 64) by (apply Z.mod_pos_bound; lia).
  assert (H3 : 0 <= cp mod 64 < 64) by (apply Z.mod_pos_bound; lia).
  assert (Hlo : cp / 262144 = 0 -> 16 <= (cp / 4096) mod 64)
    by (intros; Z.div_mod_to_equations; lia).
  assert (Hhi : cp / 262144 = 4 -> (cp / 4096) mod 64 <= 15)
    by (intros; Z.div_mod_to_equations; lia).
  unfold char_step, is_cont, utf8_char_width, second_ok4.
  split; [|split; [|intros r]];
    destruct Hq as [Hq|[Hq|[Hq|[Hq|Hq]]]]; rewrite Hq in *; simpl; zcmp.
Qed.

Lemma ascii_valid (l : list Z) :
  Forall (fun x => 0 <= x < 0x80) l -> from_utf8 l = Utf8Ok.
Proof.
  induction 1 as [|x l Hx Hl IH]; [reflexivity|].
  rewrite from_utf8_unfold.
  replace (char_step (x :: l)) with (StepChar 1)
    by (unfold char_step; rewrite Z.geb_leb, (proj2 (Z.leb_gt 128 x)) by lia;
        reflexivity).
  change (drop 1 (x :: l)) with l. rewrite IH. reflexivity.
Qed.

(** A byte of 0x80..0xFF in front of an ASCII byte is one invalid
    sequence of length 1. *)
Lemma invalid_before_ascii (b a : Z) (r : list Z) :
  0x80 <= b <= 0xFF -> 0 <= a < 0x80 -> char_step (b :: a :: r) = StepBad 1.
Proof.
  intros Hb Ha.
  assert (E1 : (b >=? 128) = true) by (rewrite Z.geb_leb; apply Z.leb_le; lia).
  assert (E2 : is_cont a = false) by (unfold is_cont; zcmp).
  assert (E3 : second_ok3 b a = false) by (unfold second_ok3; zcmp).
  assert (E4 : second_ok4 b a = false) by (unfold second_ok4; zcmp).
  unfold char_step. rewrite E1.
  destruct (utf8_char_width b) as [|[|[|[|[|?]]]]]; rewrite ?E2, ?E3, ?E4; reflexivity.
Qed.

Lemma second_ok_cont (x b : Z) :
  is_cont b = false -> second_ok3 x b = false /\ second_ok4 x b = false.
Proof.
  unfold is_cont, second_ok3, second_ok4. intros H.
  split; revert H; zcmp; intros; try discriminate; try (exfalso; lia).
Qed.

(** A non-continuation byte after an incomplete sequence ends it as an
    invalid sequence of its own length. *)
Lemma short_then_noncont (c : list Z) (b : Z) (r : list Z) :
  char_step c = StepShort -> is_cont b = false ->
  char_step (c ++ b :: r) = StepBad (length c).
Proof.
  intros H Hb.
  assert (E3 : forall x, second_ok3 x b = false) by (intros x; apply second_ok_cont, Hb).
  assert (E4 : forall x, second_ok4 x b = false) by (intros x; apply second_ok_cont, Hb).
  destruct c as [|b0 [|b1 [|b2 [|b3 c]]]]; step_cases H; clear H; step_eval;
    rewrite ?Hb, ?E3, ?E4; reflexivity.
Qed.

(** C10. Carry invariant of the streaming decoder: for every sequence of
    calls started from an empty carry, the carry is empty or holds the
    leading bytes of one UTF-8 sequence that is valid so far but incomplete,
    hence at most 3 bytes; and every further call emits exactly the
    decoding ([String::from_utf8_lossy]) of the bytes it consumed from the
    front of [carry ++ chunk], keeping the rest as the new carry. *)
Theorem decode_utf8_stream_carry_invariant (history : list (list Z)) (chunk : list Z) :
  let carry := carry_after [] history in
  incomplete_prefix carry /\
  let '(out, carry') := decode_utf8_stream carry chunk in
  incomplete_prefix carry' /\ (length carry' <= 3)%nat /\
  exists consumed, carry ++ chunk = consumed ++ carry' /\
                   out = from_utf8_lossy consumed.
Proof.
  cbv zeta. pose proof (carry_after_ok history [] (or_introl eq_refl)) as Hc.
  split; [exact Hc|].
  pose proof (decode_spec _ chunk Hc) as Hs.
  destruct (decode_utf8_stream (carry_after [] history) chunk) as [out c'].
  destruct Hs as (Hi & Hx).
  split; [exact Hi|]. split; [apply incomplete_prefix_length, Hi | exact Hx].
Qed.

(** C1. UTF-8 boundary safety.  (a) Whatever the stream before, a 4-byte
    code point fed as a 1-byte chunk then a 3-byte chunk comes out as
    exactly its four bytes, with no U+FFFD for it: the first call only
    flushes what the carry held before (nothing on a fresh stream) and
    keeps the lead byte.  (b) From an empty carry, a chunk made of one
    invalid byte followed by ASCII text decodes to one U+FFFD followed by
    that text, with nothing left over. *)
Theorem decode_utf8_stream_boundary_safety :
  (forall (history : list (list Z)) (cp : Z),
     0x10000 <= cp <= 0x10FFFF ->
     let bs := Text.encode_utf8 cp in
     let carry := carry_after [] history in
     decode_utf8_stream carry (take 1 bs) = (from_utf8_lossy carry, take 1 bs) /\
     decode_utf8_stream (take 1 bs) (drop 1 bs) = (bs, [])) /\
  (forall (b : Z) (ascii : list Z),
     0x80 <= b <= 0xFF -> ascii <> [] -> Forall (fun x => 0 <= x < 0x80) ascii ->
     decode_utf8_stream [] (b :: ascii) = (replacement_char ++ ascii, [])).
Proof.
  split.
  - intros history cp Hcp. cbv zeta.
    destruct (encode4_steps cp Hcp) as (b0 & b1 & b2 & b3 & -> & Hs0 & Hc0 & H4).
    change (take 1 [b0; b1; b2; b3]) with [b0].
    change (drop 1 [b0; b1; b2; b3]) with [b1; b2; b3].
    assert (Hv0 : from_utf8 [b0] = Utf8Err 0 None)
      by (rewrite from_utf8_unfold, Hs0; reflexivity).
    split.
    + destruct (carry_after_ok history [] (or_introl eq_refl)) as [-> | Hc].
      * unfold decode_utf8_stream. cbv beta iota zeta.
        rewrite decode_loop_short by (simpl; lia || exact Hv0). reflexivity.
      * pose proof (err_at_front _ _ Hc) as Hsh. simpl in Hsh.
        pose proof (char_step_short_length _ Hsh) as Hlen.
        set (c := carry_after [] history) in *.
        assert (Hv : from_utf8 (c ++ [b0]) = Utf8Err 0 (Some (length c)))
          by (rewrite from_utf8_unfold, (short_then_noncont _ _ _ Hsh Hc0); reflexivity).
        unfold decode_utf8_stream. cbv beta iota zeta.
        rewrite decode_loop_bad with (len := length c)
          by (rewrite ?length_app; simpl; lia || exact Hv).
        rewrite length_app, Nat.add_0_l, Nat.min_l by (simpl; lia).
        replace (length c + length [b0])%nat with (S (length c)) by (simpl; lia).
        rewrite decode_loop_short
          by (rewrite ?length_app; simpl; try lia;
              rewrite drop_app_length; exact Hv0).
        rewrite (proj2 (Nat.ltb_lt 0 (length c))) by lia.
        rewrite drop_app_length, (lossy_unfold c), Hsh. reflexivity.
    + assert (Hv : from_utf8 [b0; b1; b2; b3] = Utf8Ok)
        by (rewrite from_utf8_unfold, H4; reflexivity).
      unfold decode_utf8_stream. cbv beta iota zeta.
      rewrite decode_loop_ok by (simpl; lia || exact Hv). reflexivity.
  - intros b ascii Hb Hne Ha.
    destruct ascii as [|a rest]; [contradiction|].
    assert (Hv : from_utf8 (b :: a :: rest) = Utf8Err 0 (Some 1%nat)).
    { rewrite from_utf8_unfold, invalid_before_ascii; [reflexivity | lia |].
      inversion Ha; lia. }
    assert (Hv' : from_utf8 (a :: rest) = Utf8Ok) by (apply ascii_valid, Ha).
    unfold decode_utf8_stream. cbv beta iota zeta.
    change ([] ++ b :: a :: rest) with (b :: a :: rest).
    rewrite decode_loop_bad with (len := 1%nat) by (simpl; lia || exact Hv).
    change (length (b :: a :: rest)) with (S (S (length rest))).
    rewrite decode_loop_ok by (simpl; lia || exact Hv').
    cbn. rewrite drop_ge by lia. reflexivity.
Qed.

Lemma decode_utf8_stream_boundary_safety_witness :
  (decode_utf8_stream [] (take 1 (Text.encode_utf8 0x1F600)) =
     ([], take 1 (Text.encode_utf8 0x1F600)) /\
   decode_utf8_stream (take 1 (Text.encode_utf8 0x1F600)) (drop 1 (Text.encode_utf8 0x1F600)) =
     (Text.encode_utf8 0x1F600, [])) /\
  decode_utf8_stream [] [0xFF; 0x61] = (replacement_char ++ [0x61], []).
Proof.
  split.
  - exact (proj1 decode_utf8_stream_boundary_safety [] 0x1F600 ltac:(lia)).
  - apply (proj2 decode_utf8_stream_boundary_safety); [lia | discriminate | repeat constructor; lia].
Defined.

End StreamFacts.

(* ------------------------------------------------------------------ *)
(** ** Recording ids *)

Module RecordingIdFacts.
Import Text RecordingId StreamFacts.

Lemma trim_start_all_ws (s : list Z) :
  Forall (fun c => is_whitespace c = true) s -> trim_start s = [].
Proof. induction 1 as [|c s Hc _ IH]; simpl; [reflexivity|]. rewrite Hc. exact IH. Qed.

Lemma trim_start_no_ws (s : list Z) :
  Forall (fun c => is_whitespace c = false) s -> trim_start s = s.
Proof. intros [|c r Hc _]; simpl; [reflexivity|]. rewrite Hc. reflexivity. Qed.

Lemma trim_no_ws (s : list Z) :
  Forall (fun c => is_whitespace c = false) s -> trim s = s.
Proof.
  intros H. unfold trim. rewrite (trim_start_no_ws s H).
  rewrite trim_start_no_ws by (apply Forall_rev; exact H).
  apply rev_involutive.
Qed.

Lemma ok_not_ws (c : Z) : id_char_ok c = true -> is_whitespace c = false.
Proof.
  unfold id_char_ok, is_ascii_alphanumeric, is_whitespace.
  zcmp; intros Hok_c; try discriminate Hok_c; try reflexivity; exfalso; lia.
Qed.

Lemma replace_ok (ch : Z) : id_char_ok (if id_char_ok ch then ch else 95) = true.
Proof. destruct (id_char_ok ch) eqn:E; [exact E | reflexivity]. Qed.

Lemma default_ok : Forall (fun c => id_char_ok c = true) (chars "recording").
Proof. repeat constructor. Qed.

(** Shape of the result: the placeholder, or the replaced prefix. *)
Lemma sanitize_cases (input : list Z) :
  (trim input = [] /\ sanitize_recording_id input = chars "recording") \/
  (trim input <> [] /\
   sanitize_recording_id input =
   map (fun ch => if id_char_ok ch then ch else 95) (take 120 (trim input))).
Proof.
  unfold sanitize_recording_id. destruct (trim input) as [|c r].
  - left. split; reflexivity.
  - right. split; [discriminate|]. reflexivity.
Qed.

Lemma sanitize_basic (input : list Z) :
  let r := sanitize_recording_id input in
  r <> [] /\ (length r <= 120)%nat /\ Forall (fun c => id_char_ok c = true) r.
Proof.
  cbv zeta.
  destruct (sanitize_cases input) as [(_ & Hr) | (Ht & Hr)]; rewrite Hr.
  - split; [discriminate|]. split; [simpl; lia|]. exact default_ok.
  - destruct (trim input) as [|c r] eqn:Et; [contradiction|].
    split; [simpl; discriminate|].
    split; [rewrite length_map, length_take; lia|].
    apply Forall_map, Forall_forall. intros x _. apply replace_ok.
Qed.

(** C7. For every input the sanitized id is non-empty, at most 120 chars
    long, made only of ASCII alphanumerics, '-' and '_' (so no '/' or '\'),
    equal to the input's trimmed prefix with every other char replaced by
    '_', and an empty or all-whitespace input gives "recording". *)
Theorem sanitize_recording_id_shape (input : list Z) :
  let r := sanitize_recording_id input in
  r <> [] /\ (length r <= 120)%nat /\
  Forall (fun c => id_char_ok c = true) r /\
  ~ In 47 r /\ ~ In 92 r /\
  (trim input <> [] ->
   r = map (fun ch => if id_char_ok ch then ch else 95) (take 120 (trim input))) /\
  (Forall (fun c => is_whitespace c = true) input -> r = chars "recording").
Proof.
  cbv zeta.
  assert (Hsep : forall r, Forall (fun c => id_char_ok c = true) r ->
                 ~ In 47 r /\ ~ In 92 r).
  { intros r Hr. rewrite List.Forall_forall in Hr.
    split; intros Hin; apply Hr in Hin; discriminate Hin. }
  assert (Hws : Forall (fun c => is_whitespace c = true) input ->
                sanitize_recording_id input = chars "recording").
  { intros H. unfold sanitize_recording_id, trim.
    rewrite (trim_start_all_ws input H). reflexivity. }
  destruct (sanitize_cases input) as [(Ht & Hr) | (Ht & Hr)]; rewrite Hr.
  - split; [discriminate|]. split; [simpl; lia|].
    split; [exact default_ok|]. split; [|split]; [apply Hsep, default_ok ..|].
    split; [intros Hn; contradiction|]. intros _. reflexivity.
  - assert (Hall : Forall (fun c => id_char_ok c = true)
                     (map (fun ch => if id_char_ok ch then ch else 95)
                        (take 120 (trim input)))).
    { apply Forall_map, Forall_forall. intros x _. apply replace_ok. }
    destruct (trim input) as [|c r] eqn:Et; [contradiction|].
    split; [simpl; discriminate|].
    split; [rewrite length_map, length_take; lia|].
    split; [exact Hall|]. split; [|split]; [apply Hsep, Hall ..|].
    split; [intros _; reflexivity|].
    intros H. rewrite <- Hr. exact (Hws H).
Qed.

Lemma sanitize_recording_id_shape_witness :
  sanitize_recording_id (chars "  ../etc/passwd ") = chars "___etc_passwd" /\
  sanitize_recording_id (chars "   ") = chars "recording".
Proof.
  split.
  - destruct (sanitize_recording_id_shape (chars "  ../etc/passwd "))
      as (_ & _ & _ & _ & _ & Hmap & _).
    rewrite Hmap by (vm_compute; discriminate). vm_compute. reflexivity.
  - destruct (sanitize_recording_id_shape (chars "   ")) as (_ & _ & _ & _ & _ & _ & Hws).
    apply Hws. repeat constructor.
Defined.

(** C8. Sanitizing is idempotent. *)
Theorem sanitize_recording_id_idempotent (s : list Z) :
  sanitize_recording_id (sanitize_recording_id s) = sanitize_recording_id s.
Proof.
  destruct (sanitize_basic s) as (Hne & Hlen & Hok).
  set (r := sanitize_recording_id s) in *.
  assert (Ht : trim r = r).
  { apply trim_no_ws. eapply Forall_impl; [exact Hok|]. exact ok_not_ws. }
  destruct (sanitize_cases r) as [(Ht' & _) | (_ & Hr)].
  - rewrite Ht in Ht'. contradiction.
  - rewrite Hr, Ht, take_ge by exact Hlen.
    clear -Hok. induction Hok as [|c l Hc _ IH]; [reflexivity|].
    simpl. rewrite Hc, IH. reflexivity.
Qed.

End RecordingIdFacts.

(* ------------------------------------------------------------------ *)
(** ** Session names *)

Module NameFacts.
Import Text Pty.

Lemma chars_inj (s1 s2 : string) : chars s1 = chars s2 -> s1 = s2.
Proof.
  revert s2. induction s1 as [|a s1 IH]; intros [|b s2] H;
    unfold chars in H; simpl in H; try discriminate H; [reflexivity|].
  injection H as Hab Hs. apply Nat2Z.inj in Hab.
  rewrite <- (Ascii.ascii_nat_embedding a), <- (Ascii.ascii_nat_embedding b), Hab.
  f_equal. apply IH. exact Hs.
Qed.

Lemma candidate_inj (base : list Z) (n m : N) :
  candidate base n = candidate base m -> n = m.
Proof.
  unfold candidate, dec. intros H.
  apply app_inv_head in H. injection H as H.
  apply (inj pretty). apply chars_inj. exact H.
Qed.

Lemma candidate_ne_base (base : list Z) (n : N) : candidate base n <> base.
Proof.
  unfold candidate. intros H. apply (f_equal (@length Z)) in H.
  rewrite length_app in H. simpl in H. lia.
Qed.

Lemma probe_spec (taken : list (list Z)) (base : list Z) (fuel : nat) (n : N) :
  exists k, (n <= k <= n + N.of_nat fuel)%N /\
    probe taken base n fuel = candidate base k /\
    (forall m, (n <= m < k)%N -> candidate base m ∈ taken) /\
    ((k < n + N.of_nat fuel)%N -> candidate base k ∉ taken).
Proof.
  revert n. induction fuel as [|f IH]; intros n; simpl.
  - exists n. split; [lia|]. split; [reflexivity|].
    split; [intros m Hm; lia | intros Hk; lia].
  - case_decide as Hin.
    + destruct (IH (n + 1)%N) as (k & Hk & Hp & Hbelow & Hfree).
      exists k. split; [lia|]. split; [exact Hp|]. split.
      * intros m Hm. destruct (decide (m = n)) as [->|Hne]; [exact Hin|].
        apply Hbelow. lia.
      * intros Hlt. apply Hfree. lia.
    + exists n. split; [lia|]. split; [reflexivity|].
      split; [intros m Hm; lia | intros _; exact Hin].
Qed.

(** One probe per taken name suffices: the base and the candidates
    probed are pairwise distinct and all taken. *)
Lemma unique_name_spec (existing : gmap (list Z) PtySession) (base : list Z) :
  let taken := taken_names existing in
  (base ∉ taken -> unique_name existing base = base) /\
  (base ∈ taken ->
   exists k, (2 <= k)%N /\ unique_name existing base = candidate base k /\
     (candidate base k ∉ taken) /\
     forall m, (2 <= m < k)%N -> candidate base m ∈ taken).
Proof.
  cbv zeta. unfold unique_name. split.
  - intros Hn. rewrite decide_False by exact Hn. reflexivity.
  - intros Hin. rewrite decide_True by exact Hin.
    set (taken := taken_names existing) in *.
    destruct (probe_spec taken base (length taken) 2) as (k & Hk & Hp & Hbelow & Hfree).
    destruct (decide (k < 2 + N.of_nat (length taken))%N) as [Hlt|Hge].
    + exists k. split; [lia|]. split; [exact Hp|].
      split; [exact (Hfree Hlt)|exact Hbelow].
    + exfalso.
      set (L := base :: map (fun i => candidate base (N.of_nat i + 2)) (seq 0 (length taken))).
      assert (Hnd : List.NoDup L).
      { constructor.
        - intros Hm. apply in_map_iff in Hm as (i & Hi & _).
          exact (candidate_ne_base base _ Hi).
        - apply Finite.Injective_map_NoDup; [|apply List.seq_NoDup].
          intros i j Hij. apply candidate_inj in Hij. lia. }
      assert (Hincl : incl L taken).
      { intros x [<-|Hx].
        - apply list_elem_of_In. exact Hin.
        - apply in_map_iff in Hx as (i & <- & Hi). apply in_seq in Hi.
          apply list_elem_of_In. apply Hbelow. lia. }
      pose proof (List.NoDup_incl_length Hnd Hincl) as Hlen.
      subst L. simpl in Hlen. rewrite length_map, length_seq in Hlen. lia.
Qed.

Lemma unique_name_fresh (existing : gmap (list Z) PtySession) (base : list Z) :
  unique_name existing base ∉ taken_names existing.
Proof.
  destruct (unique_name_spec existing base) as [H1 H2].
  destruct (decide (base ∈ taken_names existing)) as [Hin|Hn].
  - destruct (H2 Hin) as (k & _ & -> & Hk & _). exact Hk.
  - rewrite (H1 Hn). exact Hn.
Qed.

Lemma taken_of_lookup (m : gmap (list Z) PtySession) (i : list Z) (s : PtySession) :
  m !! i = Some s -> name s ∈ taken_names m.
Proof.
  intros H. unfold taken_names. apply list_elem_of_fmap. exists s. split; [reflexivity|].
  apply list_elem_of_fmap. exists (i, s). split; [reflexivity|].
  apply elem_of_map_to_list. exact H.
Qed.

Lemma names_unique_insert_fresh (m : gmap (list Z) PtySession) (id : list Z) (s : PtySession) :
  names_unique m -> name s ∉ taken_names m -> names_unique (<[id := s]> m).
Proof.
  intros Hu Hf i j si sj Hi Hj Hn.
  rewrite lookup_insert in Hi, Hj.
  destruct (decide (id = i)) as [<-|Hne1]; destruct (decide (id = j)) as [<-|Hne2];
    try reflexivity.
  - injection Hi as <-. exfalso. apply Hf. rewrite Hn. exact (taken_of_lookup _ _ _ Hj).
  - injection Hj as <-. exfalso. apply Hf. rewrite <- Hn. exact (taken_of_lookup _ _ _ Hi).
  - exact (Hu i j si sj Hi Hj Hn).
Qed.

Lemma names_unique_insert_same (m : gmap (list Z) PtySession) (id : list Z) (s s' : PtySession) :
  names_unique m -> m !! id = Some s -> name s' = name s -> names_unique (<[id := s']> m).
Proof.
  intros Hu Hs Hname i j si sj Hi Hj Hn.
  rewrite lookup_insert in Hi, Hj.
  destruct (decide (id = i)) as [<-|Hne1]; destruct (decide (id = j)) as [<-|Hne2];
    try reflexivity.
  - injection Hi as <-. apply (Hu id j s sj Hs Hj). congruence.
  - injection Hj as <-. apply (Hu i id si s Hi Hs). congruence.
  - exact (Hu i j si sj Hi Hj Hn).
Qed.

Lemma names_unique_delete (m : gmap (list Z) PtySession) (id : list Z) :
  names_unique m -> names_unique (delete id m).
Proof.
  intros Hu i j si sj Hi Hj Hn.
  rewrite lookup_delete in Hi, Hj.
  destruct (decide (id = i)); [discriminate|]. destruct (decide (id = j)); [discriminate|].
  exact (Hu i j si sj Hi Hj Hn).
Qed.

Lemma names_unique_empty : names_unique ∅.
Proof. intros i j si sj Hi. rewrite lookup_empty in Hi. discriminate. Qed.

End NameFacts.

(* ------------------------------------------------------------------ *)
(** ** The session registry under the commands *)

Module RegistryFacts.
Import Text Pty NameFacts.

Lemma create_session_effect (env : HostEnv) (o : SpawnOutcome) (st : AppState)
    (n c d : option (list Z)) :
  let '(st', r) := create_session env o st n c d in
  poisoned st' = poisoned st /\
  match r with
  | Ok info =>
    poisoned st = false /\
    sessions st' = <[info_id info := mkSession (info_name info) (info_command info) [] None]>
                     (sessions st) /\
    info_name info ∉ taken_names (sessions st)
  | Err _ => sessions st' = sessions st
  end.
Proof.
  unfold create_session. destruct (launch_plan _ _) as [[[p a] sc] u].
  destruct o; simpl; try (split; reflexivity).
  destruct (poisoned st) eqn:Ep; simpl; [split; reflexivity|].
  split; [reflexivity|]. split; [reflexivity|]. split; [reflexivity|].
  apply unique_name_fresh.
Qed.

Lemma write_to_session_effect (st : AppState) (id data : list Z) (src : option (list Z))
    (now : N) (io : WriteIo) :
  let '(st', r) := write_to_session st id data src now io in
  poisoned st' = poisoned st /\
  (st' = st \/
   exists s s', poisoned st = false /\ sessions st !! id = Some s /\
     st' = set_sessions st (<[id := s']> (sessions st)) /\
     name s' = name s /\ pty_writer s' = pty_writer s ++ [WWrite (as_bytes data); WFlush] /\
     (recording s = None -> recording s' = None)).
Proof.
  unfold write_to_session.
  destruct (poisoned st) eqn:Ep; [split; [auto | left; reflexivity]|].
  destruct (sessions st !! id) as [s|] eqn:Es; [|split; [auto | left; reflexivity]].
  destruct (pty_ok io); simpl; [|split; [auto | left; reflexivity]].
  case_bool_decide.
  - destruct (recording s) as [rec|] eqn:Er; simpl.
    + destruct (record_user_input rec data now (json_ok io) (newline_ok io)) as [rec' [u|e]];
        (split; [simpl; auto|]); right; eexists s, _; (split; [auto|]); (split; [auto|]);
        (split; [reflexivity|]); (split; [reflexivity|]); (split; [reflexivity|]); congruence.
    + (split; [simpl; auto|]). right. eexists s, _. split; [auto|]. split; [auto|].
      split; [reflexivity|]. split; [reflexivity|]. split; [reflexivity|].
      simpl. rewrite Er. auto.
  - (split; [simpl; auto|]). right. eexists s, _. split; [auto|]. split; [auto|].
    split; [reflexivity|]. split; [reflexivity|]. split; [reflexivity|].
    simpl. auto.
Qed.

Lemma close_session_effect (st : AppState) (id : list Z) :
  let '(st', r) := close_session st id in
  poisoned st' = poisoned st /\
  (st' = st \/ (poisoned st = false /\ st' = set_sessions st (delete id (sessions st)))).
Proof.
  unfold close_session. destruct (poisoned st) eqn:Ep; [split; [auto | left; reflexivity]|].
  destruct (sessions st !! id); (split; [simpl; auto|]); [right | left]; auto.
Qed.

Lemma pump_exit_effect (st : AppState) (id : list Z) :
  poisoned (pump_exit st id) = poisoned st /\
  (pump_exit st id = st \/ pump_exit st id = set_sessions st (delete id (sessions st))).
Proof.
  unfold pump_exit. destruct (poisoned st) eqn:Ep; split; auto.
Qed.

Lemma run_call_names_unique (st : AppState) (c : Call) :
  names_unique (sessions st) -> names_unique (sessions (run_call st c)).
Proof.
  intros Hu. destruct c as [env o n cm d|id data src now io|id|id]; simpl.
  - pose proof (create_session_effect env o st n cm d) as He.
    destruct (create_session env o st n cm d) as [st' [info|e]]; simpl;
      destruct He as (_ & He).
    + destruct He as (_ & -> & Hf). apply names_unique_insert_fresh; assumption.
    + rewrite He. exact Hu.
  - pose proof (write_to_session_effect st id data src now io) as He.
    destruct (write_to_session st id data src now io) as [st' r]; simpl.
    destruct He as (_ & [-> | (s & s' & _ & Hs & -> & Hn & _ & _)]); [exact Hu|].
    simpl. exact (names_unique_insert_same _ _ _ _ Hu Hs Hn).
  - pose proof (close_session_effect st id) as He.
    destruct (close_session st id) as [st' r]; simpl.
    destruct He as (_ & [-> | (_ & ->)]); [exact Hu|]. apply names_unique_delete, Hu.
  - destruct (pump_exit_effect st id) as (_ & [-> | ->]); [exact Hu|].
    apply names_unique_delete, Hu.
Qed.

Lemma run_calls_names_unique (st : AppState) (cs : list Call) :
  names_unique (sessions st) -> names_unique (sessions (run_calls st cs)).
Proof.
  unfold run_calls. revert st. induction cs as [|c cs IH]; intros st Hu; simpl; [exact Hu|].
  apply IH, run_call_names_unique, Hu.
Qed.

(** C2 (as the code has it).  In every registry reached from the empty one
    by any sequence of create, write, close and end-of-stream steps, no two
    live sessions share a name; a successful [create_session] stores the
    new session under its name, and no other live session holds that name;
    the name is chosen by first-fit: the trimmed base if no live session
    holds it, else [base-k] for the least [k >= 2] not held. *)
Theorem create_session_unique_names :
  (forall calls : list Call, names_unique (sessions (run_calls initial_state calls))) /\
  (forall (env : HostEnv) (o : SpawnOutcome) (st st' : AppState) (n c d : option (list Z))
          (info : SessionInfo),
     create_session env o st n c d = (st', Ok info) ->
     sessions st' !! info_id info = Some (mkSession (info_name info) (info_command info) [] None) /\
     forall j sj, j <> info_id info -> sessions st' !! j = Some sj -> name sj <> info_name info) /\
  (forall (existing : gmap (list Z) PtySession) (base : list Z),
     let taken := taken_names existing in
     (base ∉ taken -> unique_name existing base = base) /\
     (base ∈ taken ->
      exists k, (2 <= k)%N /\ unique_name existing base = candidate base k /\
        (candidate base k ∉ taken) /\
        forall m, (2 <= m < k)%N -> candidate base m ∈ taken)).
Proof.
  split; [|split].
  - intros calls. apply run_calls_names_unique, names_unique_empty.
  - intros env o st st' n c d info Hc.
    pose proof (create_session_effect env o st n c d) as He. rewrite Hc in He.
    destruct He as (_ & _ & Hs & Hf). rewrite Hs. split; [apply lookup_insert_eq|].
    intros j sj Hj Hl Hn. rewrite lookup_insert_ne in Hl by congruence.
    apply Hf. rewrite <- Hn. exact (taken_of_lookup _ _ _ Hl).
  - exact unique_name_spec.
Qed.

Lemma create_session_unique_names_witness :
  unique_name ∅ (chars "shell") = chars "shell" /\
  (exists k, (2 <= k)%N /\
     unique_name {[ [48] := mkSession (chars "shell") [] [] None ]} (chars "shell") =
     candidate (chars "shell") k) /\
  (let env := mkHostEnv (Some (chars "/bin/bash")) None (fun _ => false) None in
   match create_session env Spawned initial_state None None None with
   | (st', Ok info) =>
     sessions st' !! info_id info = Some (mkSession (info_name info) (info_command info) [] None)
   | _ => False
   end).
Proof.
  destruct create_session_unique_names as (_ & Hcreate & Hname).
  split; [|split].
  - apply (proj1 (Hname ∅ (chars "shell"))).
    refine (bool_decide_unpack _ _). vm_compute. exact I.
  - destruct (proj2 (Hname {[ [48] := mkSession (chars "shell") [] [] None ]} (chars "shell")))
      as (k & Hk & Hu & _).
    + refine (bool_decide_unpack _ _). vm_compute. exact I.
    + exists k. split; assumption.
  - cbv zeta.
    destruct (create_session (mkHostEnv (Some (chars "/bin/bash")) None (fun _ => false) None)
                Spawned initial_state None None None) as [st' [info|e]] eqn:Ec.
    + exact (proj1 (Hcreate _ _ _ _ _ _ _ _ Ec)).
    + vm_compute in Ec. discriminate Ec.
Defined.

(** C2, the example: with one session named "shell" live, three more
    unnamed shells are named shell-2, shell-3, shell-4, not shell, shell-2,
    shell-3. *)
Lemma create_session_unique_names_counterexample :
  let env := mkHostEnv (Some (chars "/bin/bash")) None (fun _ => false) None in
  let create st := create_session env Spawned st None None None in
  let st1 := (create initial_state).1 in
  match create st1 with
  | (st2, Ok i2) =>
    match create st2 with
    | (st3, Ok i3) =>
      match create st3 with
      | (_, Ok i4) =>
        session_names st1 = [chars "shell"] /\
        [info_name i2; info_name i3; info_name i4] =
          [candidate (chars "shell") 2; candidate (chars "shell") 3; candidate (chars "shell") 4] /\
        [info_name i2; info_name i3; info_name i4] <>
          [chars "shell"; candidate (chars "shell") 2; candidate (chars "shell") 3]
      | _ => False
      end
    | _ => False
    end
  | _ => False
  end.
Proof.
  vm_compute. split; [reflexivity|]. split; [reflexivity|]. intros H. discriminate H.
Qed.

End RegistryFacts.

(* ------------------------------------------------------------------ *)
(** ** Commands: working directory, writes, close *)

Module CommandFacts.
Import Text Pty NameFacts RegistryFacts.

(** The session [id] is absent or not recording. *)
Lemma run_call_unrecorded (st : AppState) (id : list Z) (c : Call) :
  (forall s, sessions st !! id = Some s -> recording s = None) ->
  forall s, sessions (run_call st c) !! id = Some s -> recording s = None.
Proof.
  intros Hn. destruct c as [env o n cm d|id' data src now io|id'|id']; simpl.
  - pose proof (create_session_effect env o st n cm d) as He.
    destruct (create_session env o st n cm d) as [st' [info|e]]; simpl;
      destruct He as (_ & He).
    + destruct He as (_ & -> & _). intros s Hs. rewrite lookup_insert in Hs.
      destruct (decide (info_id info = id)); [injection Hs as <-; reflexivity|].
      exact (Hn s Hs).
    + rewrite He. exact Hn.
  - pose proof (write_to_session_effect st id' data src now io) as He.
    destruct (write_to_session st id' data src now io) as [st' r]; simpl.
    destruct He as (_ & [-> | (s0 & s' & _ & Hs0 & -> & _ & _ & Hrec)]); [exact Hn|].
    intros s Hs. simpl in Hs. rewrite lookup_insert in Hs.
    destruct (decide (id' = id)) as [<-|Hne]; [|exact (Hn s Hs)].
    injection Hs as <-. apply Hrec, Hn, Hs0.
  - pose proof (close_session_effect st id') as He.
    destruct (close_session st id') as [st' r]; simpl.
    destruct He as (_ & [-> | (_ & ->)]); [exact Hn|].
    intros s Hs. simpl in Hs. rewrite lookup_delete in Hs.
    destruct (decide (id' = id)); [discriminate|exact (Hn s Hs)].
  - destruct (pump_exit_effect st id') as (_ & [-> | ->]); [exact Hn|].
    intros s Hs. simpl in Hs. rewrite lookup_delete in Hs.
    destruct (decide (id' = id)); [discriminate|exact (Hn s Hs)].
Qed.

Lemma run_calls_unrecorded (st : AppState) (id : list Z) (cs : list Call) :
  (forall s, sessions st !! id = Some s -> recording s = None) ->
  forall s, sessions (run_calls st cs) !! id = Some s -> recording s = None.
Proof.
  unfold run_calls. revert st. induction cs as [|c cs IH]; intros st Hn; simpl; [exact Hn|].
  apply IH. apply run_call_unrecorded, Hn.
Qed.

(** C4 (as the code has it).  The working directory reported (and given
    to the child) is [resolve_cwd]: the trimmed requested directory when
    it is non-empty and [Path::is_dir] holds for it, whether absolute or
    relative; otherwise HOME when it is a directory; otherwise none. *)
Theorem create_session_cwd (env : HostEnv) (o : SpawnOutcome) (st : AppState)
    (n c d : option (list Z)) :
  (forall st' info, create_session env o st n c d = (st', Ok info) ->
     info_cwd info = resolve_cwd env d) /\
  (forall s, d = Some s -> trim s <> [] -> is_dir env (trim s) = true ->
     resolve_cwd env d = Some (trim s)) /\
  ((forall s, d = Some s -> trim s = [] \/ is_dir env (trim s) = false) ->
   resolve_cwd env d =
     match env_home env with
     | Some h => if is_dir env h then Some h else None
     | None => None
     end).
Proof.
  split; [|split].
  - intros st' info. unfold create_session. destruct (launch_plan _ _) as [[[p a] sc] u].
    destruct o; simpl; try discriminate.
    destruct (poisoned st); simpl; [discriminate|].
    intros H. injection H as _ <-. reflexivity.
  - intros s -> Hne Hdir. unfold resolve_cwd.
    rewrite bool_decide_false by exact Hne. rewrite Hdir. reflexivity.
  - intros Hno. unfold resolve_cwd. destruct d as [s|]; [|reflexivity].
    destruct (Hno s eq_refl) as [He|Hd].
    + rewrite bool_decide_true by exact He. reflexivity.
    + rewrite Hd, andb_false_r. reflexivity.
Qed.

Lemma create_session_cwd_witness :
  (let env := mkHostEnv None (Some (chars "/home/u"))
                (fun p => bool_decide (p = chars "/tmp" \/ p = chars "/home/u")) None in
   resolve_cwd env (Some (chars " /tmp ")) = Some (chars "/tmp") /\
   resolve_cwd env (Some (chars "/nonexistent")) = Some (chars "/home/u")).
Proof.
  cbv zeta. split.
  - destruct (create_session_cwd (mkHostEnv None (Some (chars "/home/u"))
                (fun p => bool_decide (p = chars "/tmp" \/ p = chars "/home/u")) None)
                Spawned initial_state None None (Some (chars " /tmp ")))
      as (_ & Huse & _).
    exact (Huse (chars " /tmp ") eq_refl ltac:(vm_compute; discriminate)
             ltac:(vm_compute; reflexivity)).
  - destruct (create_session_cwd (mkHostEnv None (Some (chars "/home/u"))
                (fun p => bool_decide (p = chars "/tmp" \/ p = chars "/home/u")) None)
                Spawned initial_state None None (Some (chars "/nonexistent")))
      as (_ & _ & Hhome).
    rewrite Hhome; [vm_compute; reflexivity|].
    intros s Hs. injection Hs as <-. right. vm_compute. reflexivity.
Defined.

(** C4, the example: a relative path naming a directory (here "src",
    resolved against the manager's working directory) is used as the
    session's working directory. *)
Lemma create_session_cwd_counterexample :
  let env := mkHostEnv (Some (chars "/bin/bash")) (Some (chars "/home/u"))
               (fun p => bool_decide (p = chars "src" \/ p = chars "/home/u")) None in
  hd 0 (chars "src") <> 47 /\
  match create_session env Spawned initial_state None None (Some (chars "src")) with
  | (_, Ok info) => info_cwd info = Some (chars "src")
  | _ => False
  end.
Proof. vm_compute. split; [discriminate | reflexivity]. Qed.

(** C5.  When a user write reaches a live recording session, the PTY
    write succeeds and recording the event fails (either write of the
    input line), the call still returns success, the bytes went to the
    PTY, the session stays registered with its recording detached, the
    other sessions are untouched, and after any further calls the
    session, while registered, records nothing. *)
Theorem write_to_session_recording_failure_detaches (st : AppState) (id : list Z)
    (s : PtySession) (rec : SessionRecording) (data : list Z) (now : N) (io : WriteIo) :
  poisoned st = false -> sessions st !! id = Some s -> recording s = Some rec ->
  pty_ok io = true ->
  (record_user_input rec data now (json_ok io) (newline_ok io)).2 <> Ok tt ->
  let '(st', r) := write_to_session st id data (Some (chars "user")) now io in
  r = Ok tt /\ poisoned st' = false /\
  sessions st' !! id =
    Some (mkSession (name s) (command s) (pty_writer s ++ [WWrite (as_bytes data); WFlush]) None) /\
  (forall j, j <> id -> sessions st' !! j = sessions st !! j) /\
  (forall (calls : list Call) (s' : PtySession),
     sessions (run_calls st' calls) !! id = Some s' -> recording s' = None).
Proof.
  intros Hp Hs Hr Hio Hfail.
  unfold write_to_session. rewrite Hp, Hs, Hio. cbn [negb].
  rewrite bool_decide_true by reflexivity. cbn [recording set_pty_writer]. rewrite Hr.
  destruct (record_user_input rec data now (json_ok io) (newline_ok io)) as [rec' [u|e]];
    simpl in Hfail.
  { destruct u. exfalso. apply Hfail. reflexivity. }
  split; [reflexivity|]. split; [exact Hp|]. split; [apply lookup_insert_eq|].
  split; [intros j Hj; apply lookup_insert_ne; congruence|].
  intros calls. apply run_calls_unrecorded. intros s' Hs'. simpl in Hs'.
  rewrite lookup_insert_eq in Hs'. injection Hs' as <-. reflexivity.
Qed.

Lemma write_to_session_recording_failure_detaches_witness :
  let rec := mkRecording (chars "r1") [] 0 0 0 in
  let s := mkSession (chars "shell") (chars "/bin/sh -l") [] (Some rec) in
  let st := mkState 1 {[ [48] := s ]} false in
  let '(st', r) := write_to_session st [48] (chars "ls") (Some (chars "user")) 10
                     (mkWriteIo true false true) in
  r = Ok tt /\ poisoned st' = false /\
  sessions st' !! [48] =
    Some (mkSession (name s) (command s) (pty_writer s ++ [WWrite (as_bytes (chars "ls")); WFlush]) None) /\
  (forall j, j <> [48] -> sessions st' !! j = sessions st !! j) /\
  (forall (calls : list Call) (s' : PtySession),
     sessions (run_calls st' calls) !! [48] = Some s' -> recording s' = None).
Proof.
  cbv zeta.
  apply (write_to_session_recording_failure_detaches
           (mkState 1 {[ [48] := mkSession (chars "shell") (chars "/bin/sh -l") []
                                   (Some (mkRecording (chars "r1") [] 0 0 0)) ]} false)
           [48] (mkSession (chars "shell") (chars "/bin/sh -l") []
                   (Some (mkRecording (chars "r1") [] 0 0 0)))
           (mkRecording (chars "r1") [] 0 0 0) (chars "ls") 10 (mkWriteIo true false true));
    [reflexivity | vm_compute; reflexivity | reflexivity | reflexivity |].
  vm_compute. discriminate.
Defined.

(** C6 (as the code has it).  With the registry lock not poisoned,
    [close_session] succeeds for every id, live or not; afterwards the id
    is absent, the other sessions are untouched, and a second close
    succeeds without change.  With the lock poisoned it fails with
    "state poisoned" and changes nothing. *)
Theorem close_session_idempotent (st : AppState) (id : list Z) :
  (poisoned st = false ->
   let '(st1, r1) := close_session st id in
   r1 = Ok tt /\ sessions st1 !! id = None /\
   (forall j, j <> id -> sessions st1 !! j = sessions st !! j) /\
   close_session st1 id = (st1, Ok tt)) /\
  (poisoned st = true -> close_session st id = (st, Err (chars "state poisoned"))).
Proof.
  split.
  - intros Hp. unfold close_session. rewrite Hp.
    destruct (sessions st !! id) as [s|] eqn:Es.
    + simpl. rewrite Hp, lookup_delete_eq. split; [reflexivity|].
      split; [reflexivity|]. split; [|reflexivity].
      intros j Hj. apply lookup_delete_ne. congruence.
    + rewrite Hp, Es. split; [reflexivity|]. split; [auto|].
      split; [reflexivity|reflexivity].
  - intros Hp. unfold close_session. rewrite Hp. reflexivity.
Qed.

Lemma close_session_idempotent_witness :
  (let st := mkState 1 {[ [48] := mkSession (chars "shell") [] [] None ]} false in
   let '(st1, r1) := close_session st [48] in
   r1 = Ok tt /\ sessions st1 !! [48] = None /\
   (forall j, j <> [48] -> sessions st1 !! j = sessions st !! j) /\
   close_session st1 [48] = (st1, Ok tt)) /\
  close_session (mkState 0 ∅ true) [55] = (mkState 0 ∅ true, Err (chars "state poisoned")).
Proof.
  split.
  - exact (proj1 (close_session_idempotent
                    (mkState 1 {[ [48] := mkSession (chars "shell") [] [] None ]} false) [48])
             eq_refl).
  - exact (proj2 (close_session_idempotent (mkState 0 ∅ true) [55]) eq_refl).
Defined.

(** C6: on a registry whose lock is poisoned, closing an unknown id (and
    any other) returns the error "state poisoned", not success. *)
Lemma close_session_idempotent_counterexample :
  (close_session (mkState 0 ∅ true) (chars "7")).2 = Err (chars "state poisoned") /\
  (close_session (mkState 0 ∅ true) (chars "7")).2 <> Ok tt.
Proof. split; [reflexivity | discriminate]. Qed.

(** C9.  A write whose source is not exactly "user" either changes
    nothing (error paths) or only appends the bytes and a flush to the
    session's PTY writer: its recording, and so the recording file, is
    untouched even when active. *)
Theorem write_to_session_non_user_unrecorded (st : AppState) (id data : list Z)
    (src : option (list Z)) (now : N) (io : WriteIo) :
  src <> Some (chars "user") ->
  let '(st', r) := write_to_session st id data src now io in
  st' = st \/
  (exists s, poisoned st = false /\ sessions st !! id = Some s /\ r = Ok tt /\
     st' = set_sessions st
             (<[id := set_pty_writer s (pty_writer s ++ [WWrite (as_bytes data); WFlush])]>
                (sessions st))).
Proof.
  intros Hsrc. unfold write_to_session.
  destruct (poisoned st) eqn:Ep; [left; reflexivity|].
  destruct (sessions st !! id) as [s|] eqn:Es; [|left; reflexivity].
  destruct (pty_ok io); cbn [negb]; [|left; reflexivity].
  rewrite bool_decide_false by exact Hsrc.
  right. exists s. split; [reflexivity|]. split; [reflexivity|]. split; reflexivity.
Qed.

Lemma write_to_session_non_user_unrecorded_witness :
  let rec := mkRecording (chars "r1") [] 0 0 0 in
  let st := mkState 1 {[ [48] := mkSession (chars "shell") [] [] (Some rec) ]} false in
  let '(st', r) := write_to_session st [48] (chars "echo") (Some (chars "restore")) 10
                     (mkWriteIo true true true) in
  st' = st \/
  (exists s, poisoned st = false /\ sessions st !! [48] = Some s /\ r = Ok tt /\
     st' = set_sessions st
             (<[[48] := set_pty_writer s (pty_writer s ++ [WWrite (as_bytes (chars "echo")); WFlush])]>
                (sessions st))).
Proof.
  cbv zeta.
  apply write_to_session_non_user_unrecorded. vm_compute. discriminate.
Defined.

End CommandFacts.

(* ------------------------------------------------------------------ *)
(** ** The recorder's flush policy *)

Module RecorderFacts.
Import Text Pty.

Lemma as_bytes_app (a b : list Z) : as_bytes (a ++ b) = as_bytes a ++ as_bytes b.
Proof. unfold as_bytes. rewrite map_app, concat_app. reflexivity. Qed.

Lemma str_len_app (a b : list Z) : str_len (a ++ b) = (str_len a + str_len b)%nat.
Proof. unfold str_len. rewrite as_bytes_app, length_app. reflexivity. Qed.

Lemma str_len_cons (c : Z) (r : list Z) :
  str_len (c :: r) = (length (encode_utf8 c) + str_len r)%nat.
Proof. unfold str_len, as_bytes. cbn [map concat]. rewrite length_app. reflexivity. Qed.

Lemma encode_len_pos (c : Z) : (1 <= length (encode_utf8 c))%nat.
Proof. unfold encode_utf8. repeat destruct (_ <? _); simpl; lia. Qed.

Lemma escape_len (c : Z) : (length (encode_utf8 c) <= str_len (escape_char c))%nat.
Proof.
  assert (Hpos : forall x r, (1 <= str_len (x :: r))%nat).
  { intros x r. rewrite str_len_cons. pose proof (encode_len_pos x). lia. }
  assert (Hsmall : c < 0x80 -> length (encode_utf8 c) = 1%nat).
  { intros Hc. unfold encode_utf8. rewrite (proj2 (Z.ltb_lt c 0x80) Hc). reflexivity. }
  unfold escape_char.
  destruct (c =? 34) eqn:E; [apply Z.eqb_eq in E; rewrite Hsmall by lia; apply Hpos|].
  destruct (c =? 92) eqn:E1; [apply Z.eqb_eq in E1; rewrite Hsmall by lia; apply Hpos|].
  destruct (c =? 8) eqn:E2; [apply Z.eqb_eq in E2; rewrite Hsmall by lia; apply Hpos|].
  destruct (c =? 12) eqn:E3; [apply Z.eqb_eq in E3; rewrite Hsmall by lia; apply Hpos|].
  destruct (c =? 10) eqn:E4; [apply Z.eqb_eq in E4; rewrite Hsmall by lia; apply Hpos|].
  destruct (c =? 13) eqn:E5; [apply Z.eqb_eq in E5; rewrite Hsmall by lia; apply Hpos|].
  destruct (c =? 9) eqn:E6; [apply Z.eqb_eq in E6; rewrite Hsmall by lia; apply Hpos|].
  destruct (c <? 32) eqn:E7; [apply Z.ltb_lt in E7; rewrite Hsmall by lia; apply Hpos|].
  rewrite str_len_cons. change (str_len []) with 0%nat. lia.
Qed.

Lemma escapes_len (s : list Z) : (str_len s <= str_len (concat (map escape_char s)))%nat.
Proof.
  induction s as [|c r IH]; [simpl; lia|].
  rewrite str_len_cons. cbn [map concat]. rewrite str_len_app.
  pose proof (escape_len c). lia.
Qed.

(** The serialized event is at least as long as its data. *)
Lemma json_len (t : N) (d : list Z) : (str_len d <= str_len (input_line_json t d))%nat.
Proof.
  unfold input_line_json, json_string. rewrite !str_len_app.
  pose proof (escapes_len d). lia.
Qed.

(** One successful [record_user_input]: the line and its newline are
    written, then a flush exactly when the policy says so. *)
Lemma record_user_input_spec (rec : SessionRecording) (data : list Z) (now : N) :
  let json := input_line_json (now - started_at rec) data in
  let counter := (unflushed_bytes rec + N.of_nat (str_len json) + 1)%N in
  let flush := contains data 10 || contains data 13 || (16384 <=? counter)%N ||
               (1500 <=? now - last_flush rec)%N in
  let '(rec', r) := record_user_input rec data now true true in
  r = Ok tt /\ rec_id rec' = rec_id rec /\ started_at rec' = started_at rec /\
  rec_writer rec' =
    rec_writer rec ++ [WWrite (as_bytes json); WWrite [10]] ++ (if flush then [WFlush] else []) /\
  (if flush then last_flush rec' = now /\ unflushed_bytes rec' = 0%N
   else last_flush rec' = last_flush rec /\ unflushed_bytes rec' = counter).
Proof.
  cbv zeta. unfold record_user_input, rec_write_all. cbn -[input_line_json as_bytes str_len contains].
  destruct (contains data 10 || contains data 13 ||
            (16384 <=? unflushed_bytes rec +
               N.of_nat (str_len (input_line_json (now - started_at rec) data)) + 1)%N ||
            (1500 <=? now - last_flush rec)%N);
    cbn -[input_line_json as_bytes str_len contains]; rewrite <- ?app_assoc;
    repeat split; reflexivity.
Qed.

Lemma record_all_prefix (rec : SessionRecording) (inputs : list (list Z * N)) :
  exists ops, rec_writer (record_all rec inputs) = rec_writer rec ++ ops.
Proof.
  revert rec. induction inputs as [|[d t] r IH]; intros rec; cbn [record_all].
  - exists []. rewrite app_nil_r. reflexivity.
  - pose proof (record_user_input_spec rec d t) as Hs. cbv zeta in Hs.
    destruct (record_user_input rec d t true true) as [rec1 res]. cbn [fst].
    destruct Hs as (_ & _ & _ & Hw & _). destruct (IH rec1) as (ops & Hops).
    rewrite Hops, Hw. eexists. rewrite <- !app_assoc. reflexivity.
Qed.

(** A run without a flush keeps every byte of data counted and ends below
    the threshold. *)
Lemma no_flush_run (inputs : list (list Z * N)) (rec : SessionRecording) :
  WFlush ∉ drop (length (rec_writer rec)) (rec_writer (record_all rec inputs)) ->
  (N.of_nat (sum_list_with (fun p => str_len p.1) inputs) + unflushed_bytes rec <=
     unflushed_bytes (record_all rec inputs))%N /\
  (inputs <> [] -> (unflushed_bytes (record_all rec inputs) < 16384)%N).
Proof.
  revert rec. induction inputs as [|[d t] r IH]; intros rec Hno; cbn [record_all sum_list_with].
  - split; [lia | congruence].
  - pose proof (record_user_input_spec rec d t) as Hs. cbv zeta in Hs.
    cbn [record_all] in Hno.
    destruct (record_user_input rec d t true true) as [rec1 res]. cbn [fst] in Hno |- *.
    destruct Hs as (_ & _ & _ & Hw & Hf).
    destruct (record_all_prefix rec1 r) as (ops & Hops).
    rewrite Hops, Hw, <- !app_assoc, drop_app_length in Hno.
    pose proof (json_len (t - started_at rec) d) as Hjl.
    destruct (contains d 10 || contains d 13 ||
              (16384 <=? unflushed_bytes rec +
                 N.of_nat (str_len (input_line_json (t - started_at rec) d)) + 1)%N ||
              (1500 <=? t - last_flush rec)%N) eqn:Eflush.
    + exfalso. apply Hno. apply elem_of_app. right. apply elem_of_app. left.
      apply list_elem_of_singleton. reflexivity.
    + destruct Hf as (_ & Hu1).
      apply orb_false_iff in Eflush as (Eflush & _).
      apply orb_false_iff in Eflush as (_ & Hbelow).
      apply N.leb_gt in Hbelow.
      assert (Hno1 : WFlush ∉ drop (length (rec_writer rec1)) (rec_writer (record_all rec1 r))).
      { rewrite Hops, drop_app_length. intros Hin. apply Hno.
        apply elem_of_app. right. apply elem_of_app. right. exact Hin. }
      destruct (IH rec1 Hno1) as (Hge & Hlt). simpl. split.
      * lia.
      * intros _. destruct r as [|p r']; [simpl; lia|]. apply Hlt. discriminate.
Qed.

(** C3.  After a successful [record_user_input] the writer has received
    the serialized event and a newline, followed by a flush exactly when
    the data contains '\n' or '\r', or the unflushed count including this
    event reaches 16384 bytes, or 1500 ms or more have passed since the
    last flush; a flush resets the count and the last-flush instant,
    otherwise the count grows by the event's length.  Data containing a
    newline is flushed at once; and any run of successful calls whose
    data totals at least 16384 bytes, newline-free or not, issues a flush. *)
Theorem record_user_input_flush_policy :
  (forall (rec : SessionRecording) (data : list Z) (now : N),
     let json := input_line_json (now - started_at rec) data in
     let counter := (unflushed_bytes rec + N.of_nat (str_len json) + 1)%N in
     let flush := contains data 10 || contains data 13 || (16384 <=? counter)%N ||
                  (1500 <=? now - last_flush rec)%N in
     let '(rec', r) := record_user_input rec data now true true in
     r = Ok tt /\ rec_id rec' = rec_id rec /\ started_at rec' = started_at rec /\
     rec_writer rec' =
       rec_writer rec ++ [WWrite (as_bytes json); WWrite [10]] ++ (if flush then [WFlush] else []) /\
     (if flush then last_flush rec' = now /\ unflushed_bytes rec' = 0%N
      else last_flush rec' = last_flush rec /\ unflushed_bytes rec' = counter)) /\
  (forall (rec : SessionRecording) (data : list Z) (now : N),
     contains data 10 = true ->
     last (rec_writer (record_user_input rec data now true true).1) = Some WFlush /\
     unflushed_bytes (record_user_input rec data now true true).1 = 0%N) /\
  (forall (rec : SessionRecording) (inputs : list (list Z * N)),
     (16384 <= N.of_nat (sum_list_with (fun p => str_len p.1) inputs))%N ->
     WFlush ∈ drop (length (rec_writer rec)) (rec_writer (record_all rec inputs))).
Proof.
  split; [exact record_user_input_spec|]. split.
  - intros rec data now Hnl. pose proof (record_user_input_spec rec data now) as Hs.
    cbv zeta in Hs. rewrite Hnl in Hs. cbn [orb] in Hs.
    destruct (record_user_input rec data now true true) as [rec' res]. cbn [fst].
    destruct Hs as (_ & _ & _ & Hw & _ & Hu). rewrite Hw, !app_assoc.
    split; [apply last_snoc | exact Hu].
  - intros rec inputs Hsum.
    destruct (decide (WFlush ∈ drop (length (rec_writer rec)) (rec_writer (record_all rec inputs))))
      as [Hin|Hno]; [exact Hin|].
    exfalso. destruct (no_flush_run inputs rec Hno) as (Hge & Hlt).
    destruct inputs as [|p r]; [simpl in Hsum; lia|].
    specialize (Hlt ltac:(discriminate)). lia.
Qed.

Lemma record_user_input_flush_policy_witness :
  last (rec_writer (record_user_input (mkRecording (chars "r1") [] 0 0 0)
                      (chars "ls" ++ [10]) 20 true true).1) = Some WFlush /\
  WFlush ∈ drop 0 (rec_writer (record_all (mkRecording (chars "r1") [] 0 0 0)
                                 (repeat (repeat 97 1024, 0%N) 17))).
Proof.
  destruct record_user_input_flush_policy as (_ & Hnl & Hrun). split.
  - exact (proj1 (Hnl (mkRecording (chars "r1") [] 0 0 0) (chars "ls" ++ [10]) 20%N
                    ltac:(vm_compute; reflexivity))).
  - apply (Hrun (mkRecording (chars "r1") [] 0 0 0)).
    apply N.leb_le. vm_compute. reflexivity.
Defined.

End RecorderFacts.

(* ------------------------------------------------------------------ *)
(** ** The output pump over a whole stream *)

Module PumpFacts.
Import Utf8 Utf8Facts Stream.

(** A step decided on some bytes is not changed by the bytes after them. *)
Lemma char_step_bad_app (v s : list Z) (l : nat) :
  char_step v = StepBad l -> char_step (v ++ s) = StepBad l.
Proof.
  intros H.
  destruct v as [|b0 [|b1 [|b2 [|b3 v]]]]; step_cases H;
    injection H as <-; step_eval; reflexivity.
Qed.

Lemma char_step_char_app (v s : list Z) (n : nat) :
  char_step v = StepChar n -> char_step (v ++ s) = StepChar n.
Proof.
  intros H. destruct (char_step_char v n H) as (_ & Hn & Hloc).
  rewrite <- (take_drop n v), <- app_assoc. apply Hloc.
Qed.

(** Valid UTF-8 decodes to itself in front of anything. *)
Lemma lossy_valid_app (v : list Z) :
  from_utf8 v = Utf8Ok -> forall s, from_utf8_lossy (v ++ s) = v ++ from_utf8_lossy s.
Proof.
  induction v as [v IH] using list_len_ind. intros H s.
  rewrite from_utf8_unfold in H.
  destruct (char_step v) eqn:E; try discriminate.
  - pose proof (char_step_char _ _ E) as (Hn1 & Hn2 & _).
    destruct (from_utf8 (drop n v)) eqn:E2; [|discriminate].
    rewrite lossy_unfold, (char_step_char_app v s n E).
    rewrite take_app_le, drop_app_le by lia.
    rewrite IH; [|rewrite length_drop; lia|exact E2].
    rewrite app_assoc, take_drop. reflexivity.
  - apply char_step_end in E. subst. reflexivity.
Qed.

(** Each round of the decoding loop moves bytes from the remaining input
    to the output without changing what the whole decodes to. *)
Lemma decode_loop_whole (fuel : nat) (carry : list Z) (idx : nat) (out s : list Z) :
  let '(out', idx') := decode_loop fuel carry idx out in
  out ++ from_utf8_lossy (drop idx carry ++ s) =
  out' ++ from_utf8_lossy (drop idx' carry ++ s).
Proof.
  revert idx out. induction fuel as [|f IH]; intros idx out; [reflexivity|].
  cbn [decode_loop].
  destruct (idx <? length carry)%nat eqn:Hlt; [|reflexivity].
  apply Nat.ltb_lt in Hlt.
  destruct (from_utf8 (drop idx carry)) as [|va el] eqn:Ev.
  - rewrite (drop_ge carry (length carry)) by lia; cbn [app]. rewrite (lossy_valid_app _ Ev), app_assoc. reflexivity.
  - destruct (valid_prefix _ _ _ Ev) as (Hva & Hrest & Hpre).
    assert (Hsplit : from_utf8_lossy (drop idx carry ++ s) =
                     take va (drop idx carry) ++
                     from_utf8_lossy (drop (idx + va) carry ++ s)).
    { rewrite <- Hpre, app_assoc, <- drop_drop, take_drop. reflexivity. }
    rewrite drop_drop in Hrest.
    assert (Hstep :
      let '(o1, i1) := if (0 <? va)%nat
                       then (out ++ take va (drop idx carry), (idx + va)%nat)
                       else (out, idx) in
      o1 = out ++ take va (drop idx carry) /\ i1 = (idx + va)%nat).
    { destruct (0 <? va)%nat eqn:E0; [split; reflexivity|].
      apply Nat.ltb_ge in E0. assert (va = 0%nat) as -> by lia.
      rewrite take_0, app_nil_r, Nat.add_0_r. split; reflexivity. }
    destruct (if (0 <? va)%nat then _ else _) as [o1 i1].
    destruct Hstep as (-> & ->).
    rewrite Hsplit, app_assoc.
    pose proof (err_at_front _ _ Hrest) as Hfront.
    destruct el as [len|]; [|reflexivity].
    pose proof (char_step_bad _ _ Hfront) as (Hl1 & Hl2 & _).
    rewrite length_drop in Hl2.
    specialize (IH (Nat.min (idx + va + len) (length carry))
                   (out ++ take va (drop idx carry) ++ replacement_char)).
    rewrite <- app_assoc.
    destruct (decode_loop f carry _ _) as [o2 i2].
    rewrite <- IH. rewrite Nat.min_l by lia.
    rewrite (lossy_unfold (drop (idx + va) carry ++ s)).
    rewrite (char_step_bad_app _ s _ Hfront).
    rewrite drop_app_le by (rewrite length_drop; lia).
    rewrite drop_drop, <- !app_assoc. reflexivity.
Qed.

Lemma decode_whole (carry chunk s : list Z) :
  let '(out, carry') := decode_utf8_stream carry chunk in
  from_utf8_lossy (carry ++ chunk ++ s) = out ++ from_utf8_lossy (carry' ++ s).
Proof.
  unfold decode_utf8_stream. destruct chunk as [|b chunk]; [reflexivity|].
  pose proof (decode_loop_whole (S (length (carry ++ b :: chunk))) (carry ++ b :: chunk)
                0 [] s) as H.
  destruct (decode_loop _ _ _ _) as [out idx].
  rewrite drop_0 in H. simpl in H. rewrite app_assoc, H.
  destruct (0 <? idx)%nat eqn:E; [reflexivity|].
  apply Nat.ltb_ge in E. assert (idx = 0%nat) as -> by lia. rewrite drop_0. reflexivity.
Qed.

Lemma concat_emit_nonempty (data : list Z) : concat (emit_nonempty data) = data.
Proof.
  unfold emit_nonempty. case_bool_decide as H; [subst|]; simpl; auto using app_nil_r.
Qed.

Lemma emit_nonempty_ne (data : list Z) : Forall (fun d => d <> []) (emit_nonempty data).
Proof.
  unfold emit_nonempty. case_bool_decide as H; constructor; auto.
Qed.

Lemma pump_events_whole (carry : list Z) (chunks : list (list Z)) :
  concat (pump_events carry chunks) = from_utf8_lossy (carry ++ concat chunks) /\
  Forall (fun d => d <> []) (pump_events carry chunks).
Proof.
  revert carry. induction chunks as [|c cs IH]; intros carry; cbn [pump_events concat].
  - rewrite app_nil_r. case_bool_decide as Hc.
    + subst. split; [reflexivity | constructor].
    + split; [apply concat_emit_nonempty | apply emit_nonempty_ne].
  - pose proof (decode_whole carry c (concat cs)) as H.
    destruct (decode_utf8_stream carry c) as [out carry'].
    destruct (IH carry') as [IH1 IH2].
    rewrite concat_app, concat_emit_nonempty, IH1, H. split; [reflexivity|].
    apply Forall_app. split; [apply emit_nonempty_ne | exact IH2].
Qed.

(** Whatever the read boundaries, the [pty-output] events the output
    pump emits for a stream, end of stream included, are non-empty and
    their concatenation is exactly [String::from_utf8_lossy] of all the
    bytes read; a stream of valid UTF-8 is delivered unchanged. *)
Theorem pump_events_lossy_decoding (chunks : list (list Z)) :
  concat (pump_events [] chunks) = from_utf8_lossy (concat chunks) /\
  Forall (fun d => d <> []) (pump_events [] chunks) /\
  (from_utf8 (concat chunks) = Utf8Ok -> concat (pump_events [] chunks) = concat chunks).
Proof.
  destruct (pump_events_whole [] chunks) as [H1 H2]. simpl in H1.
  split; [exact H1|]. split; [exact H2|].
  intros Hok. rewrite H1. apply lossy_ok. exact Hok.
Qed.

Lemma pump_events_lossy_decoding_witness :
  concat (pump_events [] [[0x68; 0xF0]; [0x9F]; [0x98; 0x80; 0x21]]) =
  [0x68; 0xF0; 0x9F; 0x98; 0x80; 0x21].
Proof.
  apply (proj2 (proj2 (pump_events_lossy_decoding [[0x68; 0xF0]; [0x9F]; [0x98; 0x80; 0x21]]))).
  vm_compute. reflexivity.
Defined.

End PumpFacts.

(* ------------------------------------------------------------------ *)
(** ** Shell quoting *)

Module ShellFacts.
Import Shell.

(** The only char [sh_read_quoted] treats specially is ['] (39). *)
Lemma sh_read_quoted_plain (c : Z) (r : list Z) :
  c <> 39 -> sh_read_quoted (c :: r) = option_map (cons c) (sh_read_quoted r).
Proof.
  intros Hc. destruct c as [|p|p]; [reflexivity| |reflexivity].
  repeat (destruct p as [p|p|]; try reflexivity). congruence.
Qed.

Lemma option_map_app_nil (o : option (list Z)) : option_map (app []) o = o.
Proof. destruct o; reflexivity. Qed.

Lemma sh_read_quoted_body (s r : list Z) :
  sh_read_quoted
    (concat (map (fun ch => if ch =? 39 then [39; 92; 39; 39] else [ch]) s) ++ 39 :: r) =
  option_map (app s) (sh_read_unquoted r).
Proof.
  induction s as [|ch s IH]; cbn [map concat].
  - apply eq_sym, option_map_app_nil.
  - destruct (Z.eqb_spec ch 39) as [->|Hne].
    + simpl. rewrite IH. destruct (sh_read_unquoted r); reflexivity.
    + rewrite <- app_assoc. cbn [app].
      rewrite sh_read_quoted_plain by exact Hne.
      rewrite IH. destruct (sh_read_unquoted r); reflexivity.
Qed.

(** Read back as a shell word, [sh_single_quote s] is exactly [s], for
    every [s]: the whole output is quoted, so the shell neither splits,
    expands nor interprets any char of [s], quotes included. *)
Theorem sh_single_quote_roundtrip (s : list Z) :
  sh_read_unquoted (sh_single_quote s) = Some s.
Proof.
  unfold sh_single_quote. cbn [app sh_read_unquoted].
  rewrite sh_read_quoted_body. simpl. rewrite app_nil_r. reflexivity.
Qed.

End ShellFacts.

(* ------------------------------------------------------------------ *)
(** ** Starting and stopping a recording *)

Module RecordingCmdFacts.
Import Text RecordingId Pty Commands.

Lemma start_session_recording_effect (st : AppState)
    (id rid p sp : list Z) (cwd : option (list Z)) (ca t1 t2 : N) (io : StartIo)
    (st' : AppState) (r : result (list Z)) :
  start_session_recording st id rid p sp cwd ca t1 t2 io = (st', r) ->
  (st' = st /\ exists e, r = Err e) \/
  (exists s, poisoned st = false /\ sessions st !! id = Some s /\ recording s = None /\
   is_Some (app_data_dir io) /\ create_dir_ok io = true /\ open_ok io = true /\
   meta_ok io = true /\ meta_newline_ok io = true /\
   r = Ok (sanitize_recording_id rid) /\
   st' = set_sessions st
           (<[id := set_recording s
                      (Some (mkRecording (sanitize_recording_id rid)
                               [WWrite (as_bytes (meta_line_json ca p sp cwd)); WWrite [10]; WFlush]
                               t1 t2 0))]> (sessions st))).
Proof.
  unfold start_session_recording, recording_file_path. intros H.
  repeat case_match; simplify_eq; try (left; eauto; fail).
  right. eexists. repeat split; eauto; apply negb_false_iff; assumption.
Qed.

Lemma stop_session_recording_effect (st : AppState) (id : list Z)
    (st' : AppState) (r : result (option (list Z))) :
  stop_session_recording st id = (st', r) ->
  (st' = st /\ ((exists e, r = Err e) \/ r = Ok None)) \/
  (exists s rec, poisoned st = false /\ sessions st !! id = Some s /\ recording s = Some rec /\
   r = Ok (Some (rec_id rec)) /\
   st' = set_sessions st (<[id := set_recording s None]> (sessions st))).
Proof.
  unfold stop_session_recording. intros H.
  repeat case_match; simplify_eq; try (left; eauto; fail).
  right. eauto 10.
Qed.

Lemma set_sessions_same (st : AppState) : set_sessions st (sessions st) = st.
Proof. destruct st; reflexivity. Qed.

Lemma set_recording_twice (s : PtySession) (r : option SessionRecording) :
  recording s = None -> set_recording (set_recording s r) None = s.
Proof. destruct s; simpl; intros ->; reflexivity. Qed.

Lemma stop_session_recording_live (st : AppState) (id : list Z) (s : PtySession)
    (rec : SessionRecording) :
  poisoned st = false -> sessions st !! id = Some s -> recording s = Some rec ->
  stop_session_recording st id =
  (set_sessions st (<[id := set_recording s None]> (sessions st)), Ok (Some (rec_id rec))).
Proof. intros Hp Hs Hr. unfold stop_session_recording. rewrite Hp, Hs, Hr. reflexivity. Qed.

(** [start_session_recording] fails, leaving the registry unchanged, or
    returns the sanitized id and attaches to the session a fresh recording
    whose file holds the meta line and a newline, flushed, with nothing
    counted as unflushed.  It succeeds exactly when the lock is not
    poisoned, the session exists and is not already recording, and every
    file operation succeeds; an existing recording is never replaced. *)
Theorem start_session_recording_outcome (st : AppState)
    (id rid p sp : list Z) (cwd : option (list Z)) (ca t1 t2 : N) (io : StartIo) :
  let '(st', r) := start_session_recording st id rid p sp cwd ca t1 t2 io in
  match r with
  | Ok safe =>
    safe = sanitize_recording_id rid /\
    exists s, sessions st !! id = Some s /\ recording s = None /\
    st' = set_sessions st
            (<[id := set_recording s
                       (Some (mkRecording safe
                                [WWrite (as_bytes (meta_line_json ca p sp cwd)); WWrite [10]; WFlush]
                                t1 t2 0))]> (sessions st))
  | Err _ => st' = st
  end /\
  ((exists safe, r = Ok safe) <->
   poisoned st = false /\ (exists s, sessions st !! id = Some s /\ recording s = None) /\
   is_Some (app_data_dir io) /\ create_dir_ok io = true /\ open_ok io = true /\
   meta_ok io = true /\ meta_newline_ok io = true).
Proof.
  destruct (start_session_recording st id rid p sp cwd ca t1 t2 io) as [st' r] eqn:E.
  destruct (start_session_recording_effect _ _ _ _ _ _ _ _ _ _ _ _ E)
    as [[-> [e ->]] | (s & Hp & Hs & Hr & Ha & Hc & Ho & Hm & Hn & -> & ->)].
  - split; [reflexivity|]. split; [intros [? [=]]|].
    intros (Hp & (s & Hs & Hr) & [d Ha] & Hc & Ho & Hm & Hn).
    unfold start_session_recording, recording_file_path in E.
    rewrite Hp, Hs, Hr, Ha, Hc, Ho, Hm, Hn in E. discriminate.
  - split; [split; [reflexivity | eauto]|].
    split; [intros _; eauto 10 | eauto].
Qed.

(** Stopping right after a successful start returns the sanitized id
    that start returned and gives back exactly the registry as it was
    before the start; stopping once more returns [Ok None] and changes
    nothing. *)
Theorem start_then_stop_session_recording (st st1 : AppState)
    (id rid p sp : list Z) (cwd : option (list Z)) (ca t1 t2 : N) (io : StartIo) (safe : list Z) :
  start_session_recording st id rid p sp cwd ca t1 t2 io = (st1, Ok safe) ->
  stop_session_recording st1 id = (st, Ok (Some safe)) /\
  stop_session_recording st id = (st, Ok None).
Proof.
  intros E.
  destruct (start_session_recording_effect _ _ _ _ _ _ _ _ _ _ _ _ E)
    as [[_ [e [=]]] | (s & Hp & Hs & Hr & _ & _ & _ & _ & _ & [= <-] & ->)].
  split.
  - erewrite stop_session_recording_live; [| exact Hp | apply lookup_insert_eq | reflexivity].
    cbn [sessions set_sessions rec_id]. rewrite insert_insert_eq, set_recording_twice by exact Hr.
    rewrite (insert_id (sessions st) id s Hs). destruct st; reflexivity.
  - unfold stop_session_recording. rewrite Hp, Hs, Hr. reflexivity.
Qed.

Lemma start_then_stop_session_recording_witness :
  let st := mkState 1 {[chars "0" := mkSession (chars "shell") (chars "/bin/sh -l") [] None]} false in
  let io := mkStartIo (Some (chars "/data")) true true true true in
  start_session_recording st (chars "0") (chars " demo run ") (chars "p1") (chars "s1") None 1000 5 5 io =
    ((start_session_recording st (chars "0") (chars " demo run ") (chars "p1") (chars "s1") None 1000 5 5 io).1,
     Ok (chars "demo_run")) /\
  stop_session_recording
    (start_session_recording st (chars "0") (chars " demo run ") (chars "p1") (chars "s1") None 1000 5 5 io).1
    (chars "0") = (st, Ok (Some (chars "demo_run"))).
Proof.
  intros st io. split; [vm_compute; reflexivity|].
  apply (start_then_stop_session_recording st _ (chars "0") (chars " demo run ") (chars "p1")
           (chars "s1") None 1000 5 5 io (chars "demo_run")).
  vm_compute. reflexivity.
Defined.

End RecordingCmdFacts.

(* ------------------------------------------------------------------ *)
(** ** Invariants of the registry under every command *)

Module CommandInvariantFacts.
Import Text RecordingId Pty Commands RegistryFacts NameFacts RecorderFacts RecordingCmdFacts.

(** *** Listing *)

Lemma list_sessions_ok (st : AppState) :
  poisoned st = false -> list_sessions st = Ok (info_of <$> map_to_list (sessions st)).
Proof. unfold list_sessions. intros ->. reflexivity. Qed.

Lemma info_of_elem (m : gmap (list Z) PtySession) (info : SessionInfo) :
  info ∈ info_of <$> map_to_list m <->
  exists s, m !! info_id info = Some s /\ info = mkInfo (info_id info) (name s) (command s) None.
Proof.
  rewrite list_elem_of_fmap. split.
  - intros [[id s] [-> Hin]]. apply elem_of_map_to_list in Hin. exists s. auto.
  - intros [s [Hs Heq]]. exists (info_id info, s). split; [exact Heq|].
    apply elem_of_map_to_list. exact Hs.
Qed.

Lemma info_of_ids (m : gmap (list Z) PtySession) :
  info_id <$> (info_of <$> map_to_list m) = (map_to_list m).*1.
Proof.
  rewrite <- list_fmap_compose. induction (map_to_list m) as [|[i s] l IH]; [reflexivity|].
  simpl. f_equal. exact IH.
Qed.

Lemma info_of_names_nodup (m : gmap (list Z) PtySession) :
  names_unique m -> NoDup (info_name <$> (info_of <$> map_to_list m)).
Proof.
  intros Hu. rewrite <- list_fmap_compose. apply NoDup_fmap_2_strong; [|apply NoDup_map_to_list].
  intros [i si] [j sj] Hi Hj Heq. apply elem_of_map_to_list in Hi, Hj. simpl in Heq.
  assert (i = j) as <- by exact (Hu i j si sj Hi Hj Heq). congruence.
Qed.

(** *** Unique names under every command *)

Lemma run_command_names_unique (st : AppState) (c : Command) :
  names_unique (sessions st) -> names_unique (sessions (run_command st c)).
Proof.
  intros Hu. destruct c as [c|id r p sp cwd ca t1 t2 io|id]; simpl.
  - apply run_call_names_unique. exact Hu.
  - destruct (start_session_recording st id r p sp cwd ca t1 t2 io) as [st' res] eqn:E.
    destruct (start_session_recording_effect _ _ _ _ _ _ _ _ _ _ _ _ E)
      as [[-> _] | (s & _ & Hs & _ & _ & _ & _ & _ & _ & _ & ->)]; [exact Hu|].
    apply (names_unique_insert_same _ _ s); auto.
  - destruct (stop_session_recording st id) as [st' res] eqn:E.
    destruct (stop_session_recording_effect _ _ _ _ E)
      as [[-> _] | (s & rec & _ & Hs & _ & _ & ->)]; [exact Hu|].
    apply (names_unique_insert_same _ _ s); auto.
Qed.

Lemma run_commands_names_unique (st : AppState) (cs : list Command) :
  names_unique (sessions st) -> names_unique (sessions (run_commands st cs)).
Proof.
  unfold run_commands. revert st. induction cs as [|c cs IH]; intros st Hu; simpl; [exact Hu|].
  apply IH, run_command_names_unique, Hu.
Qed.

(** *** The recorder's byte counter *)

Lemma bytes_since_flush_writes (w : list WriterOp) (a b : list Z) :
  bytes_since_flush (w ++ [WWrite a; WWrite b]) =
  (bytes_since_flush w + length a + length b)%nat.
Proof. unfold bytes_since_flush. rewrite foldl_app. reflexivity. Qed.

Lemma bytes_since_flush_flush (w : list WriterOp) : bytes_since_flush (w ++ [WFlush]) = 0%nat.
Proof. unfold bytes_since_flush. rewrite foldl_app. reflexivity. Qed.

Lemma record_user_input_ok_io (rec : SessionRecording) (data : list Z) (now : N)
    (j n : bool) (rec' : SessionRecording) (u : unit) :
  record_user_input rec data now j n = (rec', Ok u) -> j = true /\ n = true.
Proof. unfold record_user_input, rec_write_all. destruct j, n; simpl; try discriminate; auto. Qed.

Lemma record_user_input_accounted (rec : SessionRecording) (data : list Z) (now : N) :
  recording_accounted rec -> recording_accounted (record_user_input rec data now true true).1.
Proof.
  intros [Hc _]. pose proof (record_user_input_spec rec data now) as H.
  destruct (record_user_input rec data now true true) as [rec' r]. simpl.
  destruct H as (_ & _ & _ & Hw & Hf). unfold recording_accounted. rewrite Hw.
  destruct (_ || _ || _ || _) eqn:Ef.
  - destruct Hf as [_ ->]. rewrite app_assoc, bytes_since_flush_flush. lia.
  - destruct Hf as [_ ->]. rewrite app_nil_r, bytes_since_flush_writes.
    apply orb_false_iff in Ef as [Ef1 Ef2]. apply orb_false_iff in Ef1 as [_ Ef1].
    apply N.leb_gt in Ef1. unfold str_len in *. split; [simpl; lia | exact Ef1].
Qed.

Lemma recs_insert (m : gmap (list Z) PtySession) (id : list Z) (s : PtySession) :
  (forall i t rec, m !! i = Some t -> recording t = Some rec -> recording_accounted rec) ->
  (forall rec, recording s = Some rec -> recording_accounted rec) ->
  forall i t rec, <[id := s]> m !! i = Some t -> recording t = Some rec -> recording_accounted rec.
Proof.
  intros Hm Hs i t rec. destruct (decide (i = id)) as [->|Hne].
  - rewrite lookup_insert_eq. intros [= <-]. apply Hs.
  - rewrite lookup_insert_ne by congruence. apply Hm.
Qed.

Lemma recs_delete (m : gmap (list Z) PtySession) (id : list Z) :
  (forall i t rec, m !! i = Some t -> recording t = Some rec -> recording_accounted rec) ->
  forall i t rec, delete id m !! i = Some t -> recording t = Some rec -> recording_accounted rec.
Proof.
  intros Hm i t rec. destruct (decide (i = id)) as [->|Hne].
  - rewrite lookup_delete_eq. discriminate.
  - rewrite lookup_delete_ne by congruence. apply Hm.
Qed.

Lemma write_to_session_accounted (st : AppState) (id data : list Z) (src : option (list Z))
    (now : N) (io : WriteIo) :
  recordings_accounted st -> recordings_accounted (write_to_session st id data src now io).1.
Proof.
  unfold recordings_accounted, write_to_session. intros Hacc.
  destruct (poisoned st); [exact Hacc|].
  destruct (sessions st !! id) as [s|] eqn:Hs; [|exact Hacc].
  destruct (negb (pty_ok io)); [exact Hacc|].
  assert (Hold : forall rec, recording s = Some rec -> recording_accounted rec)
    by (intros rec; apply (Hacc id s rec Hs)).
  case_bool_decide.
  - cbn [recording set_pty_writer]. destruct (recording s) as [rec|] eqn:Hr.
    + destruct (record_user_input rec data now (json_ok io) (newline_ok io)) as [rec' [u|e]] eqn:Er;
        cbn [fst sessions set_sessions]; apply recs_insert; auto; cbn [recording set_recording];
        [|discriminate].
      intros rec'' [= <-].
      destruct (record_user_input_ok_io _ _ _ _ _ _ _ Er) as [Hj Hn].
      rewrite Hj, Hn in Er. replace rec' with (record_user_input rec data now true true).1
        by (rewrite Er; reflexivity).
      apply record_user_input_accounted, Hold. reflexivity.
    + cbn [fst sessions set_sessions]. apply recs_insert; auto. intros rec0. cbn [recording set_pty_writer]. rewrite Hr. discriminate.
  - cbn [fst sessions set_sessions]. apply recs_insert; auto.
Qed.

Lemma run_command_accounted (st : AppState) (c : Command) :
  recordings_accounted st -> recordings_accounted (run_command st c).
Proof.
  intros Hacc. destruct c as [c|id r p sp cwd ca t1 t2 io|id]; simpl.
  - destruct c as [env o n cmd d|id data src now io|id|id]; simpl.
    + pose proof (create_session_effect env o st n cmd d) as H.
      destruct (create_session env o st n cmd d) as [st' [info|e]]; simpl;
        destruct H as [_ H]; unfold recordings_accounted.
      * destruct H as (_ & -> & _). apply recs_insert; [exact Hacc|]. discriminate.
      * rewrite H. exact Hacc.
    + apply write_to_session_accounted, Hacc.
    + pose proof (close_session_effect st id) as H.
      destruct (close_session st id) as [st' res]; simpl.
      destruct H as [_ [->|[_ ->]]]; [exact Hacc|]. unfold recordings_accounted in *. apply recs_delete, Hacc.
    + destruct (pump_exit_effect st id) as [_ [->| ->]]; [exact Hacc|]. unfold recordings_accounted in *. apply recs_delete, Hacc.
  - destruct (start_session_recording st id r p sp cwd ca t1 t2 io) as [st' res] eqn:E.
    destruct (start_session_recording_effect _ _ _ _ _ _ _ _ _ _ _ _ E)
      as [[-> _] | (s & _ & Hs & _ & _ & _ & _ & _ & _ & _ & ->)]; [exact Hacc|].
    unfold recordings_accounted in *. apply recs_insert; [exact Hacc|]. simpl. intros rec [= <-].
    split; reflexivity.
  - destruct (stop_session_recording st id) as [st' res] eqn:E.
    destruct (stop_session_recording_effect _ _ _ _ E)
      as [[-> _] | (s & rec & _ & Hs & _ & _ & ->)]; [exact Hacc|].
    unfold recordings_accounted in *. apply recs_insert; [exact Hacc|]. discriminate.
Qed.

(** *** Session ids *)

Lemma create_session_ids (env : HostEnv) (o : SpawnOutcome) (st : AppState)
    (n c d : option (list Z)) :
  let '(st', r) := create_session env o st n c d in
  (next_id st' = next_id st \/ next_id st' = next_id_after (next_id st)) /\
  (forall i, is_Some (sessions st' !! i) -> is_Some (sessions st !! i) \/
     (i = dec (next_id st) /\ next_id st' = next_id_after (next_id st))) /\
  (forall info, r = Ok info -> info_id info = dec (next_id st)).
Proof.
  unfold create_session. destruct (launch_plan _ _) as [[[? ?] ?] ?].
  destruct o; cbn [next_id sessions]; try (split; [auto | split; [auto | discriminate]]).
  destruct (poisoned st); cbn [next_id sessions set_sessions];
    [split; [auto | split; [auto | discriminate]]|].
  split; [auto|]. split; [|intros info [= <-]; reflexivity].
  intros i. cbn [sessions set_sessions].
  destruct (decide (i = dec (next_id st))) as [->|Hne]; [right; split; reflexivity|].
  rewrite lookup_insert_ne by congruence. auto.
Qed.

Lemma ids_issued_sub (st st' : AppState) :
  next_id st' = next_id st ->
  (forall i, is_Some (sessions st' !! i) -> is_Some (sessions st !! i)) ->
  ids_issued st -> ids_issued st'.
Proof. intros Hn Hs Hi i Hsi. rewrite Hn. apply Hi, Hs, Hsi. Qed.

Lemma some_insert_existing (m : gmap (list Z) PtySession) (id i : list Z) (s s' : PtySession) :
  m !! id = Some s -> is_Some (<[id := s']> m !! i) -> is_Some (m !! i).
Proof.
  intros Hs. destruct (decide (i = id)) as [->|Hne].
  - rewrite Hs. eauto.
  - rewrite lookup_insert_ne by congruence. auto.
Qed.

Lemma some_delete (m : gmap (list Z) PtySession) (id i : list Z) :
  is_Some (delete id m !! i) -> is_Some (m !! i).
Proof.
  destruct (decide (i = id)) as [->|Hne].
  - rewrite lookup_delete_eq. intros [? [=]].
  - rewrite lookup_delete_ne by congruence. auto.
Qed.

Lemma run_command_ids (st : AppState) (c : Command) :
  ids_issued st -> (next_id st + 1 < 2 ^ 64)%N ->
  ids_issued (run_command st c) /\ (next_id (run_command st c) <= next_id st + 1)%N.
Proof.
  intros Hi Hb. destruct c as [c|id r p sp cwd ca t1 t2 io|id]; simpl.
  - destruct c as [env o n cmd d|id data src now io|id|id]; simpl.
    + pose proof (create_session_ids env o st n cmd d) as H.
      destruct (create_session env o st n cmd d) as [st' res]; simpl.
      destruct H as (Hn & Hk & _).
      assert (Hn' : next_id st' = next_id st \/ next_id st' = (next_id st + 1)%N).
      { unfold next_id_after in Hn. rewrite N.mod_small in Hn by lia. exact Hn. }
      split; [|lia].
      intros i Hsi. destruct (Hk i Hsi) as [Hold | [-> Hadv]].
      * destruct (Hi i Hold) as (k & Hk' & ->). exists k. split; [lia | reflexivity].
      * exists (next_id st). unfold next_id_after in Hadv. rewrite N.mod_small in Hadv by lia.
        split; [lia | reflexivity].
    + pose proof (write_to_session_effect st id data src now io) as H.
      destruct (write_to_session st id data src now io) as [st' res]; simpl.
      destruct H as [_ [->|(s & s' & _ & Hs & -> & _)]]; [split; [exact Hi | lia]|].
      split; [|simpl; lia]. apply (ids_issued_sub st); [reflexivity| |exact Hi].
      intros i. apply some_insert_existing with (s := s), Hs.
    + pose proof (close_session_effect st id) as H.
      destruct (close_session st id) as [st' res]; simpl.
      destruct H as [_ [->|[_ ->]]]; [split; [exact Hi | lia]|].
      split; [|simpl; lia]. apply (ids_issued_sub st); [reflexivity| |exact Hi].
      intros i. apply some_delete.
    + destruct (pump_exit_effect st id) as [_ [->| ->]]; [split; [exact Hi | lia]|].
      split; [|simpl; lia]. apply (ids_issued_sub st); [reflexivity| |exact Hi].
      intros i. apply some_delete.
  - destruct (start_session_recording st id r p sp cwd ca t1 t2 io) as [st' res] eqn:E.
    destruct (start_session_recording_effect _ _ _ _ _ _ _ _ _ _ _ _ E)
      as [[-> _] | (s & _ & Hs & _ & _ & _ & _ & _ & _ & _ & ->)]; simpl; [split; [exact Hi | lia]|].
    split; [|simpl; lia]. apply (ids_issued_sub st); [reflexivity| |exact Hi].
    intros i. apply some_insert_existing with (s := s), Hs.
  - destruct (stop_session_recording st id) as [st' res] eqn:E.
    destruct (stop_session_recording_effect _ _ _ _ E)
      as [[-> _] | (s & rec & _ & Hs & _ & _ & ->)]; simpl; [split; [exact Hi | lia]|].
    split; [|simpl; lia]. apply (ids_issued_sub st); [reflexivity| |exact Hi].
    intros i. apply some_insert_existing with (s := s), Hs.
Qed.

Lemma run_commands_ids (st : AppState) (cs : list Command) :
  ids_issued st -> (next_id st + N.of_nat (length cs) < 2 ^ 64)%N ->
  ids_issued (run_commands st cs) /\
  (next_id (run_commands st cs) <= next_id st + N.of_nat (length cs))%N.
Proof.
  unfold run_commands. revert st. induction cs as [|c cs IH]; intros st Hi Hb; simpl.
  - split; [exact Hi | lia].
  - simpl in Hb. destruct (run_command_ids st c Hi) as [Hi' Hn']; [lia|].
    destruct (IH (run_command st c) Hi') as [H1 H2]; [lia|]. split; [exact H1 | lia].
Qed.

Lemma dec_inj (a b : N) : dec a = dec b -> a = b.
Proof. unfold dec. intros H. apply chars_inj in H. apply (inj pretty) in H. exact H. Qed.

Lemma run_commands_accounted (st : AppState) (cs : list Command) :
  recordings_accounted st -> recordings_accounted (run_commands st cs).
Proof.
  unfold run_commands. revert st. induction cs as [|c cs IH]; intros st H; simpl; [exact H|].
  apply IH, run_command_accounted, H.
Qed.

(** [list_sessions] fails with "state poisoned" exactly when the lock is
    poisoned; otherwise it lists every session of the registry once, with
    its id, name and shown command and [cwd] left empty ([None]), and
    nothing else. *)
Theorem list_sessions_result (st : AppState) :
  match list_sessions st with
  | Err e => poisoned st = true /\ e = chars "state poisoned"
  | Ok l =>
    poisoned st = false /\ NoDup (info_id <$> l) /\ length l = size (sessions st) /\
    forall info, info ∈ l <->
      exists s, sessions st !! info_id info = Some s /\
                info = mkInfo (info_id info) (name s) (command s) None
  end.
Proof.
  destruct (poisoned st) eqn:Hp.
  - unfold list_sessions. rewrite Hp. split; reflexivity.
  - rewrite (list_sessions_ok st Hp). split; [reflexivity|]. split.
    + rewrite info_of_ids. apply NoDup_fst_map_to_list.
    + split; [rewrite length_fmap; apply length_map_to_list | apply info_of_elem].
Qed.

(** After any sequence of create, write, close, exit, start-recording
    and stop-recording commands from the empty registry, the sessions
    [list_sessions] returns have pairwise distinct names and pairwise
    distinct ids. *)
Theorem list_sessions_unique_after_commands (cs : list Command) (l : list SessionInfo) :
  list_sessions (run_commands initial_state cs) = Ok l ->
  NoDup (info_name <$> l) /\ NoDup (info_id <$> l).
Proof.
  intros H. destruct (poisoned (run_commands initial_state cs)) eqn:Hp.
  - unfold list_sessions in H. rewrite Hp in H. discriminate.
  - rewrite (list_sessions_ok _ Hp) in H. injection H as <-. split.
    + apply info_of_names_nodup, run_commands_names_unique, names_unique_empty.
    + rewrite info_of_ids. apply NoDup_fst_map_to_list.
Qed.

Lemma list_sessions_unique_after_commands_witness :
  let demo_env := mkHostEnv (Some (chars "/bin/zsh")) (Some (chars "/home/u"))
                (fun p => bool_decide (p = chars "/home/u")) None in
  let cs := [CmdCall (CallCreate demo_env Spawned None None None);
             CmdCall (CallCreate demo_env Spawned None None None);
             CmdCall (CallCreate demo_env Spawned (Some (chars " shell ")) None None)] in
  exists l, list_sessions (run_commands initial_state cs) = Ok l /\
  NoDup (info_name <$> l) /\ NoDup (info_id <$> l).
Proof.
  intros demo_env cs. eexists. split; [vm_compute; reflexivity|].
  apply (list_sessions_unique_after_commands cs). vm_compute. reflexivity.
Defined.

(** After any sequence of commands from the empty registry, the
    [unflushed_bytes] counter of every attached recording equals the
    number of bytes handed to its writer since its last flush, and is
    below the 16 KiB threshold. *)
Theorem recorder_unflushed_bytes_exact (cs : list Command) :
  recordings_accounted (run_commands initial_state cs).
Proof.
  apply run_commands_accounted. intros id s rec H. discriminate H.
Qed.

(** Unless 2^64 or more commands have run (and the id counter may have
    wrapped around), a successful [create_session] returns an id that no
    live session holds, so inserting the new session never replaces one. *)
Theorem create_session_never_overwrites (cs : list Command) (env : HostEnv)
    (o : SpawnOutcome) (n c d : option (list Z)) (st' : AppState) (info : SessionInfo) :
  (N.of_nat (length cs) < 2 ^ 64)%N ->
  create_session env o (run_commands initial_state cs) n c d = (st', Ok info) ->
  sessions (run_commands initial_state cs) !! info_id info = None.
Proof.
  intros Hlen E.
  destruct (run_commands_ids initial_state cs) as [Hi _].
  { intros i [x Hx]. discriminate Hx. }
  { simpl. lia. }
  pose proof (create_session_ids env o (run_commands initial_state cs) n c d) as H.
  rewrite E in H. destruct H as (_ & _ & Hid). rewrite (Hid info eq_refl).
  destruct (sessions (run_commands initial_state cs) !! dec _) eqn:Hs; [|reflexivity].
  destruct (Hi _ (mk_is_Some _ _ Hs)) as (k & Hk & Heq).
  apply dec_inj in Heq. lia.
Qed.

Lemma create_session_never_overwrites_witness :
  let demo_env := mkHostEnv (Some (chars "/bin/zsh")) (Some (chars "/home/u"))
                (fun p => bool_decide (p = chars "/home/u")) None in
  let cs := [CmdCall (CallCreate demo_env Spawned None None None);
             CmdCall (CallClose (chars "0"));
             CmdCall (CallCreate demo_env Spawned None (Some (chars "claude")) None)] in
  sessions (run_commands initial_state cs) !! chars "2" = None.
Proof.
  intros demo_env cs.
  apply (create_session_never_overwrites cs demo_env Spawned None None None
           (create_session demo_env Spawned (run_commands initial_state cs) None None None).1
           (mkInfo (chars "2") (chars "shell") (chars "/bin/zsh -l") (Some (chars "/home/u")))).
  - simpl. lia.
  - vm_compute. reflexivity.
Defined.

End CommandInvariantFacts.

(* ------------------------------------------------------------------ *)
(** ** Recording ids, recording files and their lines *)

Module RecordingFileFacts.
Import Text RecordingId Pty Commands RecordingIdFacts RecorderFacts.

(** *** Fixed points of sanitize_recording_id *)

Lemma sanitize_keeps_ok (x : list Z) :
  Forall (fun c => id_char_ok c = true) x ->
  map (fun ch => if id_char_ok ch then ch else 95) x = x.
Proof. induction 1 as [|c x Hc _ IH]; simpl; [reflexivity|]. rewrite Hc, IH. reflexivity. Qed.

(** [sanitize_recording_id] returns its input unchanged exactly when the
    input is a non-empty id of at most 120 chars, each an ASCII letter or
    digit, [-] or [_]. *)
Theorem sanitize_recording_id_fixed_points (x : list Z) :
  sanitize_recording_id x = x <->
  x <> [] /\ (length x <= 120)%nat /\ Forall (fun c => id_char_ok c = true) x.
Proof.
  split.
  - intros H. rewrite <- H. apply sanitize_basic.
  - intros (Hne & Hlen & Hok).
    assert (Ht : trim x = x).
    { apply trim_no_ws. eapply Forall_impl; [exact Hok|]. intros c. apply ok_not_ws. }
    unfold sanitize_recording_id. rewrite Ht, take_ge by lia. rewrite sanitize_keeps_ok by exact Hok.
    destruct x; [congruence | reflexivity].
Qed.

(** *** Recording file path *)

Lemma path_join_relative (base comp : list Z) :
  (forall r, comp <> 47 :: r) ->
  path_join base comp =
  match last base with
  | None => comp
  | Some c => if c =? 47 then base ++ comp else base ++ [47] ++ comp
  end.
Proof.
  intros H. destruct comp as [|c r]; [reflexivity|].
  destruct c as [|p|p]; try reflexivity.
  repeat (destruct p as [p|p|]; try reflexivity). exfalso. eapply H. reflexivity.
Qed.

Lemma recordings_dir_last (app : list Z) :
  last (path_join app (chars "recordings")) = Some 115.
Proof.
  rewrite path_join_relative by discriminate.
  assert (E : chars "recordings" = chars "recording" ++ [115]) by reflexivity.
  destruct (last app) as [c|]; [destruct (c =? 47)|]; rewrite E, ?app_assoc; apply last_snoc.
Qed.

(** For every requested id and app data directory, the recording file is
    [<app data>/recordings/<id>.jsonl] where [<id>] is the sanitized id:
    its last component contains no [/], so the file lies directly in the
    recordings directory whatever the request ([..] and absolute paths
    included).  Without an app data directory the result is the error
    "unknown app data dir". *)
Theorem recording_file_path_shape (app : option (list Z)) (rid : list Z) :
  match app with
  | None => recording_file_path app (sanitize_recording_id rid) = Err (chars "unknown app data dir")
  | Some d =>
    recording_file_path app (sanitize_recording_id rid) =
      Ok (path_join d (chars "recordings") ++ [47] ++ sanitize_recording_id rid ++ chars ".jsonl") /\
    47 ∉ sanitize_recording_id rid ++ chars ".jsonl"
  end.
Proof.
  destruct (sanitize_basic rid) as (Hne & _ & Hok).
  destruct app as [d|]; [|reflexivity].
  assert (H47 : 47 ∉ sanitize_recording_id rid ++ chars ".jsonl").
  { rewrite elem_of_app. intros [Hin|Hin].
    - rewrite Forall_forall in Hok. apply Hok in Hin. discriminate Hin.
    - revert Hin. change (47 ∉ chars ".jsonl"). refine (bool_decide_unpack _ _).
      vm_compute. exact I. }
  split; [|exact H47]. unfold recording_file_path. f_equal.
  rewrite (path_join_relative (path_join d _)), recordings_dir_last; [reflexivity|].
  intros r Hr. apply H47. rewrite Hr. left.
Qed.

(** *** One event per line *)

Lemma encode_utf8_line_safe (c : Z) :
  line_safe c -> Forall line_safe (encode_utf8 c).
Proof.
  intros [H0 H10]. unfold encode_utf8, line_safe.
  assert (Hm : forall y, 0 <= y mod 64) by (intros; apply Z.mod_pos_bound; lia).
  pose proof (Z.div_pos c 64 H0 ltac:(lia)). pose proof (Z.div_pos c 4096 H0 ltac:(lia)).
  pose proof (Z.div_pos c 262144 H0 ltac:(lia)).
  pose proof (Hm c). pose proof (Hm (c / 64)). pose proof (Hm (c / 4096)).
  destruct (Z.ltb_spec c 0x80); [repeat constructor; lia|].
  destruct (Z.ltb_spec c 0x800); [repeat constructor; lia|].
  destruct (Z.ltb_spec c 0x10000); repeat constructor; lia.
Qed.

Lemma as_bytes_line_safe (s : list Z) :
  Forall line_safe s -> Forall (fun b => b <> 10) (as_bytes s).
Proof.
  induction 1 as [|c s Hc _ IH]; [constructor|].
  change (as_bytes (c :: s)) with (encode_utf8 c ++ as_bytes s).
  apply Forall_app. split; [|exact IH].
  eapply Forall_impl; [apply encode_utf8_line_safe, Hc|]. intros b [_ Hb]. exact Hb.
Qed.

Lemma escape_char_line_safe (c : Z) : 0 <= c -> Forall line_safe (escape_char c).
Proof.
  intros H0. unfold escape_char, hex_digit, line_safe.
  pose proof (Z.div_pos c 16 H0 ltac:(lia)). pose proof (Z.mod_pos_bound c 16 ltac:(lia)).
  repeat match goal with
         | |- context [?a =? ?b] => destruct (Z.eqb_spec a b)
         | |- context [?a <? ?b] => destruct (Z.ltb_spec a b)
         end; repeat constructor; lia.
Qed.

Lemma json_string_line_safe (s : list Z) :
  Forall (fun c => 0 <= c) s -> Forall line_safe (json_string s).
Proof.
  intros Hs. unfold json_string. apply Forall_app. split; [repeat constructor; unfold line_safe; lia|].
  apply Forall_app. split; [|repeat constructor; unfold line_safe; lia].
  induction Hs as [|c s Hc _ IH]; [constructor|]. simpl. apply Forall_app.
  split; [apply escape_char_line_safe, Hc | exact IH].
Qed.

Lemma pretty_N_go_digits (x : N) (s : string) :
  Forall line_safe (chars s) -> Forall line_safe (chars (pretty_N_go x s)).
Proof.
  revert s. induction (N.lt_wf_0 x) as [x _ IH]; intros s Hs.
  destruct (decide (0 < x)%N) as [Hx|Hx].
  - rewrite pretty_N_go_step by exact Hx. apply IH; [apply N.div_lt; lia|].
    change (chars (String (pretty_N_char (x mod 10)) s)) with
      (Z.of_nat (Ascii.nat_of_ascii (pretty_N_char (x mod 10))) :: chars s).
    constructor; [|exact Hs]. unfold line_safe, pretty_N_char.
    repeat case_match; (split; [apply Nat2Z.is_nonneg | intros Heq; vm_compute in Heq; discriminate Heq]).
  - assert (x = 0%N) as -> by lia. rewrite pretty_N_go_0. exact Hs.
Qed.

Lemma dec_line_safe (n : N) : Forall line_safe (dec n).
Proof.
  unfold dec, pretty, pretty_N. case_decide.
  - change (Forall line_safe [48]). constructor; [unfold line_safe; lia | constructor].
  - apply pretty_N_go_digits. constructor.
Qed.

Ltac literal_safe :=
  lazymatch goal with
  | |- Forall ?P ?l => let l' := eval vm_compute in l in change (Forall P l')
  end;
  repeat (constructor; [cbv [line_safe]; lia|]); constructor.

Ltac line_pieces :=
  repeat lazymatch goal with |- Forall _ (_ ++ _) => apply Forall_app; split end.

Lemma input_line_json_line_safe (t : N) (data : list Z) :
  Forall (fun c => 0 <= c) data -> Forall line_safe (input_line_json t data).
Proof.
  intros Hd. unfold input_line_json. line_pieces;
    first [apply json_string_line_safe; first [exact Hd | literal_safe]
          | apply dec_line_safe | literal_safe].
Qed.

Lemma meta_line_json_line_safe (ca : N) (p sp : list Z) (cwd : option (list Z)) :
  Forall (fun c => 0 <= c) p -> Forall (fun c => 0 <= c) sp ->
  Forall (fun c => 0 <= c) (default [] cwd) -> Forall line_safe (meta_line_json ca p sp cwd).
Proof.
  intros Hp Hsp Hc. unfold meta_line_json. line_pieces;
    first [apply json_string_line_safe; first [exact Hp | exact Hsp | literal_safe]
          | apply dec_line_safe | literal_safe | idtac].
  destruct cwd as [c|]; [apply json_string_line_safe, Hc | literal_safe].
Qed.

Lemma no_newline_of_safe (s : list Z) : Forall line_safe s -> 10 ∉ as_bytes s.
Proof.
  intros Hs Hin. apply as_bytes_line_safe in Hs. rewrite Forall_forall in Hs.
  exact (Hs 10 Hin eq_refl).
Qed.

(** Every line the recorder writes is a single line, whatever the data,
    project id, persistence id or directory: the serialized input event
    and the serialized meta record contain no newline byte (control chars
    are escaped), so the newline written after each is the only one and
    the recording file holds one JSON record per line. *)
Theorem recording_lines_have_no_newline (t ca : N) (data p sp : list Z) (cwd : option (list Z)) :
  (Forall (fun c => 0 <= c) data -> 10 ∉ as_bytes (input_line_json t data)) /\
  (Forall (fun c => 0 <= c) p -> Forall (fun c => 0 <= c) sp ->
   Forall (fun c => 0 <= c) (default [] cwd) ->
   10 ∉ as_bytes (meta_line_json ca p sp cwd)).
Proof.
  split.
  - intros Hd. apply no_newline_of_safe, input_line_json_line_safe, Hd.
  - intros Hp Hsp Hc. apply no_newline_of_safe, meta_line_json_line_safe; assumption.
Qed.

Lemma recording_lines_have_no_newline_witness :
  (10 ∉ as_bytes (input_line_json 42 (chars "echo hi"))) /\
  (10 ∉ as_bytes (meta_line_json 1700000000000 (chars "p1") (chars "s1") (Some (chars "/tmp")))).
Proof.
  split.
  - apply (proj1 (recording_lines_have_no_newline 42 0 (chars "echo hi") [] [] None)).
    literal_safe.
  - apply (proj2 (recording_lines_have_no_newline 0 1700000000000 [] (chars "p1") (chars "s1")
                    (Some (chars "/tmp")))); literal_safe.
Defined.

End RecordingFileFacts.

(* ------------------------------------------------------------------ *)
(** ** Writes and their recording *)

Module WriteFacts.
Import Text Pty RecorderFacts.

(** [write_to_session] reports an error exactly when the lock is
    poisoned, the id is unknown or the PTY write fails, and then leaves
    the registry unchanged; a failure while recording the input is never
    reported to the caller. *)
Theorem write_to_session_result (st : AppState) (id data : list Z) (src : option (list Z))
    (now : N) (io : WriteIo) :
  let '(st', r) := write_to_session st id data src now io in
  match r with
  | Err e =>
    st' = st /\
    ((poisoned st = true /\ e = chars "state poisoned") \/
     (poisoned st = false /\ sessions st !! id = None /\ e = chars "unknown session") \/
     (poisoned st = false /\ is_Some (sessions st !! id) /\ pty_ok io = false /\
      e = chars "write failed"))
  | Ok _ => poisoned st = false /\ is_Some (sessions st !! id) /\ pty_ok io = true
  end.
Proof.
  unfold write_to_session.
  destruct (poisoned st) eqn:Hp; [split; auto|].
  destruct (sessions st !! id) as [s|] eqn:Hs; [|split; auto 10].
  destruct (pty_ok io) eqn:Ho; simpl; [|split; eauto 10].
  case_bool_decide; [|eauto].
  destruct (recording s); [|eauto].
  destruct (record_user_input _ _ _ _ _) as [rec' [u|e]]; eauto.
Qed.

(** When one of its two writes fails, [record_user_input] returns
    "write failed" without flushing and without touching the clock of the
    last flush or the byte counter; if only the newline failed, the JSON
    line is left in the writer without its newline. *)
Theorem record_user_input_write_failure (rec : SessionRecording) (data : list Z) (now : N)
    (json_ok newline_ok : bool) :
  json_ok && newline_ok = false ->
  record_user_input rec data now json_ok newline_ok =
  (mkRecording (rec_id rec)
     (rec_writer rec ++
        (if json_ok then [WWrite (as_bytes (input_line_json (now - started_at rec) data))] else []))
     (started_at rec) (last_flush rec) (unflushed_bytes rec),
   Err (chars "write failed")).
Proof.
  destruct json_ok, newline_ok; try discriminate; intros _;
    destruct rec; unfold record_user_input, rec_write_all; simpl; rewrite ?app_nil_r; reflexivity.
Qed.

Lemma record_user_input_write_failure_witness :
  let rec := mkRecording (chars "r1") [] 100 100 0 in
  record_user_input rec (chars "ls") 150 true false =
  (mkRecording (chars "r1") [WWrite (as_bytes (input_line_json 50 (chars "ls")))] 100 100 0,
   Err (chars "write failed")).
Proof.
  intros rec. apply (record_user_input_write_failure rec (chars "ls") 150 true false).
  reflexivity.
Defined.

Lemma write_user_step (st : AppState) (id d : list Z) (t : N) (s : PtySession)
    (rec : SessionRecording) :
  poisoned st = false -> sessions st !! id = Some s -> recording s = Some rec ->
  (write_to_session st id d (Some (chars "user")) t (mkWriteIo true true true)).1 =
  set_sessions st
    (<[id := mkSession (name s) (command s) (pty_writer s ++ [WWrite (as_bytes d); WFlush])
               (Some (record_user_input rec d t true true).1)]> (sessions st)).
Proof.
  intros Hp Hs Hr. unfold write_to_session. rewrite Hp, Hs. cbn [negb pty_ok].
  rewrite bool_decide_eq_true_2 by reflexivity. cbn [recording set_pty_writer json_ok newline_ok].
  rewrite Hr.
  pose proof (record_user_input_spec rec d t) as H.
  destruct (record_user_input rec d t true true) as [rec' r]. destruct H as [-> _].
  reflexivity.
Qed.

(** Successive user inputs written to a recording session, every write
    succeeding, reach the PTY in order (each written then flushed) and
    leave the session's recording as [record_all] describes: the
    recorder's state is the composition of its steps. *)
Theorem user_writes_compose (st : AppState) (id : list Z) (s : PtySession)
    (rec : SessionRecording) (inputs : list (list Z * N)) :
  poisoned st = false -> sessions st !! id = Some s -> recording s = Some rec ->
  sessions
    (foldl (fun st '(d, t) =>
              (write_to_session st id d (Some (chars "user")) t (mkWriteIo true true true)).1)
       st inputs) !! id =
  Some (mkSession (name s) (command s)
          (pty_writer s ++ concat (map (fun '(d, _) => [WWrite (as_bytes d); WFlush]) inputs))
          (Some (record_all rec inputs))).
Proof.
  revert st s rec. induction inputs as [|[d t] inputs IH]; intros st s rec Hp Hs Hr; simpl.
  - rewrite app_nil_r, Hs. destruct s; simpl in *; subst; reflexivity.
  - rewrite (write_user_step st id d t s rec Hp Hs Hr).
    erewrite IH; [| exact Hp | apply lookup_insert_eq | reflexivity]. simpl.
    rewrite <- app_assoc. reflexivity.
Qed.

Lemma user_writes_compose_witness :
  let rec := mkRecording (chars "r1") [] 0 0 0 in
  let s := mkSession (chars "shell") (chars "/bin/sh -l") [] (Some rec) in
  let st := mkState 1 {[chars "0" := s]} false in
  sessions
    (foldl (fun st '(d, t) =>
              (write_to_session st (chars "0") d (Some (chars "user")) t (mkWriteIo true true true)).1)
       st [(chars "ls", 10%N); (chars "pwd", 20%N)]) !! chars "0" =
  Some (mkSession (chars "shell") (chars "/bin/sh -l")
          ([] ++ concat (map (fun '(d, _) => [WWrite (as_bytes d); WFlush])
                           [(chars "ls", 10%N); (chars "pwd", 20%N)]))
          (Some (record_all rec [(chars "ls", 10%N); (chars "pwd", 20%N)]))).
Proof.
  intros rec s st. apply (user_writes_compose st (chars "0") s rec); reflexivity.
Defined.

End WriteFacts.

(* ------------------------------------------------------------------ *)
(** ** JSON strings read back *)

Module JsonFacts.
Import Pty JsonRef.

Lemma hex_val_digit (d : Z) : 0 <= d < 16 -> hex_val (hex_digit d) = Some d.
Proof.
  intros Hd.
  assert (d = 0 \/ d = 1 \/ d = 2 \/ d = 3 \/ d = 4 \/ d = 5 \/ d = 6 \/ d = 7 \/
          d = 8 \/ d = 9 \/ d = 10 \/ d = 11 \/ d = 12 \/ d = 13 \/ d = 14 \/ d = 15)
    as Hc by lia.
  repeat destruct Hc as [-> | Hc]; try reflexivity; subst; reflexivity.
Qed.

Lemma json_read_escape (c : Z) (rest : list Z) :
  0 <= c -> json_read_chars (escape_char c ++ rest) = prepend c (json_read_chars rest).
Proof.
  intros Hc. unfold escape_char.
  destruct (Z.eqb_spec c 34) as [->|H34]; [reflexivity|].
  destruct (Z.eqb_spec c 92) as [->|H92]; [reflexivity|].
  destruct (Z.eqb_spec c 8) as [->|H8]; [reflexivity|].
  destruct (Z.eqb_spec c 12) as [->|H12]; [reflexivity|].
  destruct (Z.eqb_spec c 10) as [->|H10]; [reflexivity|].
  destruct (Z.eqb_spec c 13) as [->|H13]; [reflexivity|].
  destruct (Z.eqb_spec c 9) as [->|H9]; [reflexivity|].
  destruct (Z.ltb_spec c 32) as [Hlt|Hge].
  - assert (Ha : hex_val (hex_digit (c / 16)) = Some (c / 16))
      by (apply hex_val_digit; split; [apply Z.div_pos | apply Z.div_lt_upper_bound]; lia).
    assert (Hb : hex_val (hex_digit (c mod 16)) = Some (c mod 16))
      by (apply hex_val_digit; apply Z.mod_pos_bound; lia).
    remember (hex_digit (c / 16)) as a. remember (hex_digit (c mod 16)) as b.
    cbn [app json_read_chars]. simpl.
    unfold hex4. rewrite Ha, Hb. cbn.
    replace ((48 - 48) * 4096 + (48 - 48) * 256 + c / 16 * 16 + c mod 16) with c
      by (pose proof (Z.div_mod c 16); lia).
    replace (55296 <=? c) with false by (symmetry; apply Z.leb_gt; lia).
    replace (56320 <=? c) with false by (symmetry; apply Z.leb_gt; lia).
    reflexivity.
  - cbn [app json_read_chars].
    rewrite (proj2 (Z.eqb_neq c 34) H34), (proj2 (Z.eqb_neq c 92) H92).
    replace (c <? 32) with false by (symmetry; apply Z.ltb_ge; lia).
    reflexivity.
Qed.

Lemma json_read_concat (s rest : list Z) :
  Forall (fun c => 0 <= c) s ->
  json_read_chars (concat (map escape_char s) ++ [34] ++ rest) = Some (s, rest).
Proof.
  induction s as [|c s IH]; intros Hs.
  - reflexivity.
  - apply Forall_cons in Hs as [Hc Hs].
    cbn [map concat]. rewrite <- app_assoc, json_read_escape by exact Hc.
    rewrite IH by exact Hs. reflexivity.
Qed.

(** What [serde_json] writes for a string is read back exactly by a JSON
    reader (RFC 8259): the escaped chars give the original ones, and the
    reader stops at the closing quote, leaving what follows untouched. *)
Theorem json_string_roundtrip (s rest : list Z) :
  Forall (fun c => 0 <= c) s -> json_read_string (json_string s ++ rest) = Some (s, rest).
Proof.
  intros Hs. unfold json_string. rewrite <- !app_assoc. cbn [app json_read_string].
  apply json_read_concat, Hs.
Qed.

Lemma json_string_roundtrip_witness :
  json_read_string (json_string [34; 92; 10; 1; 233; 0x1F600] ++ [125]) =
    Some ([34; 92; 10; 1; 233; 0x1F600], [125]).
Proof.
  apply (json_string_roundtrip [34; 92; 10; 1; 233; 0x1F600] [125]).
  repeat (constructor; [cbv beta; lia|]); constructor.
Defined.

End JsonFacts.

(* ------------------------------------------------------------------ *)
(** ** Session ids handed out by create_session *)

Module SessionIdFacts.
Import Text Pty.

(** A create that fails before the PTY exists uses no id; once the PTY is
    open, the id counter advances even when the spawn or the lock fails
    afterwards.  A failed create never touches the registry, and a
    successful one stores the new session under the id it reports. *)
Theorem create_session_id_consumption (env : HostEnv) (o : SpawnOutcome) (st : AppState)
    (n c d : option (list Z)) :
  let '(st', r) := create_session env o st n c d in
  poisoned st' = poisoned st /\
  match r with
  | Err _ =>
      sessions st' = sessions st /\
      next_id st' = match o with OpenPtyFailed => next_id st | _ => next_id_after (next_id st) end
  | Ok info =>
      o = Spawned /\ poisoned st = false /\ info_id info = dec (next_id st) /\
      next_id st' = next_id_after (next_id st) /\ is_Some (sessions st' !! info_id info)
  end.
Proof.
  unfold create_session. destruct (launch_plan _ _) as [[[? ?] ?] ?].
  destruct o; cbn [next_id sessions poisoned]; try (repeat split; reflexivity).
  destruct (poisoned st) eqn:Hp; cbn [next_id sessions poisoned set_sessions];
    [repeat split; auto|].
  repeat split; auto. cbn [info_id]. rewrite lookup_insert_eq. eauto.
Qed.

End SessionIdFacts.

(* ------------------------------------------------------------------ *)
(** ** Loading what the recorder wrote *)

Module LoadFacts.
Import Utf8 Utf8Facts StreamFacts Text RecorderFacts RecordingId Pty Commands
  RecordingFileFacts RecordingCmdFacts Load.

Lemma lor_shiftl_small (a b n : Z) :
  0 <= n -> 0 <= b < 2 ^ n -> Z.lor (Z.shiftl a n) b = Z.shiftl a n + b.
Proof.
  intros Hn Hb. symmetry. rewrite Z.add_nocarry_lxor; [apply Z.lxor_lor|];
  apply Z.bits_inj'; intros i Hi; rewrite Z.land_spec, Z.bits_0;
  (destruct (Z.lt_ge_cases i n) as [Hlt|Hge];
   [rewrite Z.shiftl_spec_low by lia; reflexivity
   |rewrite <- (Z.mod_small b (2 ^ n)) by lia; rewrite Z.mod_pow2_bits_high by lia;
    apply andb_false_r]).
Qed.

Lemma next_code_point_encode (c : Z) (r : list Z) :
  scalar_ok c -> next_code_point (encode_utf8 c ++ r) = Some (c, r).
Proof.
  intros Hc. unfold scalar_ok in Hc.
  assert (Hlor : forall a b n, 0 <= n -> 0 <= b < 2 ^ n ->
            Z.lor (Z.shiftl a n) b = a * 2 ^ n + b)
    by (intros; rewrite lor_shiftl_small, Z.shiftl_mul_pow2 by lia; reflexivity).
  assert (H63 : forall x, 0 <= x -> Z.land x CONT_MASK = x mod 64)
    by (intros x Hx; change CONT_MASK with (Z.ones 6); rewrite Z.land_ones by lia; reflexivity).
  assert (H31 : forall x, 0 <= x -> utf8_first_byte x 2 = x mod 32)
    by (intros x Hx; unfold utf8_first_byte; change (Z.shiftr 0x7F 2) with (Z.ones 5);
        rewrite Z.land_ones by lia; reflexivity).
  assert (H7 : forall x, 0 <= x -> Z.land x 7 = x mod 8)
    by (intros x Hx; change 7 with (Z.ones 3); rewrite Z.land_ones by lia; reflexivity).
  assert (Hacc : forall ch b, 0 <= b -> utf8_acc_cont_byte ch b = ch * 64 + b mod 64)
    by (intros ch b Hb; unfold utf8_acc_cont_byte; rewrite H63 by lia;
        apply (Hlor ch (b mod 64) 6); [lia | apply Z.mod_pos_bound; lia]).
  unfold encode_utf8.
  destruct (Z.ltb_spec c 0x80) as [H1|H1].
  { cbn [app next_code_point]. rewrite (proj2 (Z.ltb_lt c 128)) by lia. reflexivity. }
  destruct (Z.ltb_spec c 0x800) as [H2|H2].
  { cbn [app next_code_point].
    rewrite (proj2 (Z.ltb_ge _ 128)) by (Z.div_mod_to_equations; lia).
    rewrite Z.geb_leb, (proj2 (Z.leb_gt _ _)) by (Z.div_mod_to_equations; lia).
    rewrite Hacc, H31 by (Z.div_mod_to_equations; lia).
    do 2 f_equal. Z.div_mod_to_equations. lia. }
  destruct (Z.ltb_spec c 0x10000) as [H3|H3].
  { cbn [app next_code_point].
    rewrite (proj2 (Z.ltb_ge _ 128)) by (Z.div_mod_to_equations; lia).
    rewrite Z.geb_leb, (proj2 (Z.leb_le 0xE0 _)) by (Z.div_mod_to_equations; lia).
    rewrite Z.geb_leb, (proj2 (Z.leb_gt 0xF0 _)) by (Z.div_mod_to_equations; lia).
    rewrite (Hacc (Z.land _ CONT_MASK)) by (Z.div_mod_to_equations; lia).
    rewrite H63, H31 by (Z.div_mod_to_equations; lia).
    rewrite Hlor by (try lia; Z.div_mod_to_equations; lia).
    do 2 f_equal. Z.div_mod_to_equations. lia. }
  cbn [app next_code_point].
  rewrite (proj2 (Z.ltb_ge _ 128)) by (Z.div_mod_to_equations; lia).
  rewrite Z.geb_leb, (proj2 (Z.leb_le 0xE0 _)) by (Z.div_mod_to_equations; lia).
  rewrite Z.geb_leb, (proj2 (Z.leb_le 0xF0 _)) by (Z.div_mod_to_equations; lia).
  rewrite (Hacc (utf8_acc_cont_byte _ _)) by (Z.div_mod_to_equations; lia).
  rewrite (Hacc (Z.land _ CONT_MASK)) by (Z.div_mod_to_equations; lia).
  rewrite H63, H31 by (Z.div_mod_to_equations; lia).
  rewrite H7 by (Z.div_mod_to_equations; lia).
  rewrite Hlor by (try lia; Z.div_mod_to_equations; lia).
  do 2 f_equal. Z.div_mod_to_equations. lia.
Qed.

Lemma char_step_encode (c : Z) (r : list Z) :
  scalar_ok c -> char_step (encode_utf8 c ++ r) = StepChar (length (encode_utf8 c)).
Proof.
  intros Hc. unfold scalar_ok in Hc.
  destruct (Z.le_gt_cases 0x10000 c) as [H4|H4].
  { destruct (encode4_steps c ltac:(lia)) as (b0 & b1 & b2 & b3 & -> & _ & _ & Hs).
    apply Hs. }
  unfold encode_utf8.
  destruct (Z.ltb_spec c 0x80) as [H1|H1].
  { cbn [app char_step]. rewrite Z.geb_leb, (proj2 (Z.leb_gt 128 c)) by lia. reflexivity. }
  destruct (Z.ltb_spec c 0x800) as [H2|H2].
  { assert (Hq : 2 <= c / 64 < 32) by (Z.div_mod_to_equations; lia).
    assert (Hm : 0 <= c mod 64 < 64) by (apply Z.mod_pos_bound; lia).
    cbn [app char_step length]. unfold utf8_char_width, is_cont. zcmp. }
  rewrite (proj2 (Z.ltb_lt c 0x10000)) by lia.
  assert (Hq : 0 <= c / 4096 < 16) by (Z.div_mod_to_equations; lia).
  assert (Hm1 : 0 <= (c / 64) mod 64 < 64) by (apply Z.mod_pos_bound; lia).
  assert (Hm : 0 <= c mod 64 < 64) by (apply Z.mod_pos_bound; lia).
  assert (Hlo : c / 4096 = 0 -> 32 <= (c / 64) mod 64) by (intros; Z.div_mod_to_equations; lia).
  assert (Hsur : c / 4096 = 13 -> (c / 64) mod 64 < 32) by (intros; Z.div_mod_to_equations; lia).
  cbn [app char_step length]. unfold utf8_char_width, is_cont, second_ok3. zcmp.
Qed.


Lemma as_bytes_valid (s : list Z) :
  Forall scalar_ok s -> from_utf8 (as_bytes s) = Utf8Ok.
Proof.
  induction 1 as [|c s Hc _ IH]; [reflexivity|].
  change (as_bytes (c :: s)) with (encode_utf8 c ++ as_bytes s).
  rewrite from_utf8_unfold, char_step_encode by exact Hc.
  rewrite drop_app_length, IH. reflexivity.
Qed.

Lemma length_le_str_len (s : list Z) : (length s <= length (as_bytes s))%nat.
Proof.
  induction s as [|c s IH]; [simpl; lia|].
  change (as_bytes (c :: s)) with (encode_utf8 c ++ as_bytes s).
  rewrite length_app. pose proof (encode_len_pos c). simpl. lia.
Qed.

Lemma str_chars_as_bytes (s : list Z) (fuel : nat) :
  Forall scalar_ok s -> (length s < fuel)%nat -> str_chars fuel (as_bytes s) = s.
Proof.
  intros Hs. revert fuel. induction Hs as [|c s Hc _ IH]; intros [|f] Hf; simpl in Hf; try lia.
  - reflexivity.
  - change (as_bytes (c :: s)) with (encode_utf8 c ++ as_bytes s).
    cbn [str_chars]. rewrite next_code_point_encode by exact Hc.
    rewrite IH by lia. reflexivity.
Qed.

Lemma string_from_utf8_as_bytes (s : list Z) :
  Forall scalar_ok s -> string_from_utf8 (as_bytes s) = Some s.
Proof.
  intros Hs. unfold string_from_utf8. rewrite as_bytes_valid by exact Hs.
  rewrite str_chars_as_bytes by (exact Hs || (pose proof (length_le_str_len s); lia)).
  reflexivity.
Qed.

Lemma read_line_chunks_line (cur x rest : list Z) :
  10 ∉ x -> read_line_chunks cur (x ++ 10 :: rest) = (cur ++ x ++ [10]) :: read_line_chunks [] rest.
Proof.
  revert cur. induction x as [|b x IH]; intros cur Hx.
  - reflexivity.
  - rewrite not_elem_of_cons in Hx. destruct Hx as [Hb Hx].
    cbn [app read_line_chunks]. rewrite (proj2 (Z.eqb_neq b 10)) by congruence.
    rewrite IH by exact Hx. rewrite <- app_assoc. reflexivity.
Qed.

Lemma read_line_chunks_lines (ls : list (list Z)) :
  Forall (fun l => 10 ∉ l) ls ->
  read_line_chunks [] (concat (map (fun l => l ++ [10]) ls)) = map (fun l => l ++ [10]) ls.
Proof.
  induction 1 as [|l ls Hl _ IH]; [reflexivity|].
  cbn [map concat]. rewrite <- app_assoc. cbn [app].
  rewrite read_line_chunks_line by exact Hl. rewrite IH. reflexivity.
Qed.

Lemma strip_line_end_newline (s : list Z) :
  last s <> Some 13 -> strip_line_end (s ++ [10]) = s.
Proof.
  intros Hs. unfold strip_line_end. rewrite last_snoc, bool_decide_eq_true_2 by reflexivity.
  rewrite removelast_last, bool_decide_eq_false_2 by exact Hs. reflexivity.
Qed.

Lemma as_bytes_snoc_newline (l : list Z) : as_bytes (l ++ [10]) = as_bytes l ++ [10].
Proof. unfold as_bytes. rewrite map_app, concat_app. reflexivity. Qed.

Lemma lines_of_records (ls : list (list Z)) :
  Forall (fun l => Forall scalar_ok l /\ (10 ∉ as_bytes l) /\ last l <> Some 13) ls ->
  lines (concat (map (fun l => as_bytes l ++ [10]) ls)) = map Some ls.
Proof.
  intros Hls. unfold lines.
  assert (Hsplit : read_line_chunks [] (concat (map (fun l => as_bytes l ++ [10]) ls)) =
                   map (fun l => as_bytes l ++ [10]) ls).
  { replace (map (fun l => as_bytes l ++ [10]) ls) with (map (fun b => b ++ [10]) (map as_bytes ls))
      by (rewrite map_map; reflexivity).
    apply read_line_chunks_lines. apply Forall_map.
    eapply Forall_impl; [exact Hls|]. intros l (_ & H & _). exact H. }
  rewrite Hsplit. clear Hsplit.
  induction Hls as [|l ls (Hsc & _ & H13) _ IH]; [reflexivity|].
  cbn [map fmap list_fmap]. rewrite <- as_bytes_snoc_newline, string_from_utf8_as_bytes.
  - cbn [fmap option_fmap option_map]. rewrite strip_line_end_newline by exact H13.
    f_equal. exact IH.
  - apply Forall_app. split; [exact Hsc|]. constructor; [unfold scalar_ok; lia | constructor].
Qed.

Lemma trim_fixed (s : list Z) :
  (forall a, head s = Some a -> is_whitespace a = false) ->
  (forall b, last s = Some b -> is_whitespace b = false) -> trim s = s.
Proof.
  intros Hh Hl. destruct s as [|a m]; [reflexivity|].
  unfold trim. cbn [trim_start]. rewrite (Hh a eq_refl).
  destruct (rev (a :: m)) as [|b m'] eqn:E; [apply (f_equal (@length Z)) in E; rewrite length_rev in E; discriminate E|].
  assert (Hb : last (a :: m) = Some b).
  { rewrite <- (rev_involutive (a :: m)), E. simpl. apply last_snoc. }
  cbn [trim_start]. rewrite (Hl b Hb), <- E. apply rev_involutive.
Qed.

Lemma last_app_some (l1 l2 : list Z) (x : Z) : last l2 = Some x -> last (l1 ++ l2) = Some x.
Proof.
  intros H. induction l1 as [|a l1 IH]; [exact H|].
  rewrite <- app_comm_cons. destruct (l1 ++ l2) eqn:E; [|exact IH].
  apply app_eq_nil in E as [_ ->]. discriminate H.
Qed.

Lemma chars_ascii (s : string) : Forall (fun c => 0 <= c < 256) (chars s).
Proof.
  induction s as [|a s IH]; [constructor|].
  constructor; [|exact IH]. pose proof (Ascii.nat_ascii_bounded a). lia.
Qed.

Lemma chars_scalar (s : string) : Forall scalar_ok (chars s).
Proof.
  eapply Forall_impl; [apply chars_ascii|]. intros c Hc. cbv beta in Hc. unfold scalar_ok. lia.
Qed.

Lemma small_scalar (x : Z) : 0 <= x < 128 -> scalar_ok x.
Proof. unfold scalar_ok. lia. Qed.

Lemma escape_char_scalar (c : Z) : scalar_ok c -> Forall scalar_ok (escape_char c).
Proof.
  intros Hc. unfold escape_char, hex_digit.
  assert (0 <= c) by (unfold scalar_ok in Hc; lia).
  pose proof (Z.div_pos c 16 ltac:(lia) ltac:(lia)). pose proof (Z.mod_pos_bound c 16 ltac:(lia)).
  assert (c / 16 <= c) by (apply Z.div_le_upper_bound; lia).
  repeat match goal with
         | |- context [?a =? ?b] => destruct (Z.eqb_spec a b)
         | |- context [?a <? ?b] => destruct (Z.ltb_spec a b)
         end;
    first [ constructor; [exact Hc | constructor]
          | repeat (constructor; [apply small_scalar; lia|]); constructor ].
Qed.

Lemma json_string_scalar (s : list Z) : Forall scalar_ok s -> Forall scalar_ok (json_string s).
Proof.
  intros Hs. unfold json_string.
  apply Forall_app. split; [repeat constructor; unfold scalar_ok; lia|].
  apply Forall_app. split; [|repeat constructor; unfold scalar_ok; lia].
  induction Hs as [|c s Hc _ IH]; [constructor|]. simpl. apply Forall_app.
  split; [apply escape_char_scalar, Hc | exact IH].
Qed.

Ltac scalar_pieces :=
  line_pieces;
  first [ apply json_string_scalar; first [assumption | apply chars_scalar]
        | apply chars_scalar
        | repeat constructor; unfold scalar_ok; lia ].

Lemma input_line_json_scalar (t : N) (d : list Z) :
  Forall scalar_ok d -> Forall scalar_ok (input_line_json t d).
Proof. intros Hd. unfold input_line_json, dec. scalar_pieces. Qed.

Lemma meta_line_json_scalar (ca : N) (p sp : list Z) (cwd : option (list Z)) :
  Forall scalar_ok p -> Forall scalar_ok sp -> Forall scalar_ok (default [] cwd) ->
  Forall scalar_ok (meta_line_json ca p sp cwd).
Proof.
  intros Hp Hsp Hc. unfold meta_line_json, dec. line_pieces;
    first [ apply json_string_scalar; first [assumption | apply chars_scalar]
          | apply chars_scalar
          | repeat constructor; unfold scalar_ok; lia
          | idtac ].
  destruct cwd as [c|]; [apply json_string_scalar, Hc | apply chars_scalar].
Qed.

Lemma scalar_nonneg (s : list Z) : Forall scalar_ok s -> Forall (fun c => 0 <= c) s.
Proof. intros H. eapply Forall_impl; [exact H|]. intros c Hc. unfold scalar_ok in Hc. lia. Qed.

Lemma input_line_json_braced (t : N) (d : list Z) : braced (input_line_json t d).
Proof.
  split; [reflexivity|]. unfold input_line_json. repeat apply last_app_some. reflexivity.
Qed.

Lemma meta_line_json_braced (ca : N) (p sp : list Z) (cwd : option (list Z)) :
  braced (meta_line_json ca p sp cwd).
Proof.
  split; [reflexivity|]. unfold meta_line_json. repeat apply last_app_some. reflexivity.
Qed.

Lemma braced_trim (l : list Z) : braced l -> trim l = l /\ l <> [].
Proof.
  intros [Hh Hl]. split; [|intros ->; discriminate Hh].
  apply trim_fixed; [intros a Ha | intros b Hb].
  - rewrite Hh in Ha. injection Ha as <-. reflexivity.
  - rewrite Hl in Hb. injection Hb as <-. reflexivity.
Qed.

Lemma written_app (a b : list WriterOp) : written (a ++ b) = written a ++ written b.
Proof. unfold written. rewrite map_app, concat_app. reflexivity. Qed.


Lemma record_all_written (rec : SessionRecording) (inputs : list (list Z * N)) :
  started_at (record_all rec inputs) = started_at rec /\
  written (rec_writer (record_all rec inputs)) =
    written (rec_writer rec) ++
    concat (map (fun '(d, now) => as_bytes (input_line_json (now - started_at rec) d) ++ [10])
                inputs).
Proof.
  revert rec. induction inputs as [|[d now] inputs IH]; intros rec.
  - cbn. rewrite app_nil_r. split; reflexivity.
  - cbn [record_all]. destruct (IH (record_user_input rec d now true true).1) as [Hs Hw].
    assert (Hstep : started_at (record_user_input rec d now true true).1 = started_at rec /\
                    written (rec_writer (record_user_input rec d now true true).1) =
                    written (rec_writer rec) ++
                      as_bytes (input_line_json (now - started_at rec) d) ++ [10]).
    { unfold record_user_input, rec_write_all. cbn [rec_writer started_at fst].
      assert (Hw1 : forall b, written [WWrite b] = b) by (intros b; apply app_nil_r).
      assert (Hf : written [WFlush] = []) by reflexivity.
      lazymatch goal with |- context [if ?b then _ else _] => destruct b end;
      cbn [fst rec_writer started_at]; rewrite !written_app, ?Hw1, ?Hf;
        rewrite ?app_nil_r, <- ?app_assoc; split; reflexivity. }
    destruct Hstep as [Hs1 Hw1].
    rewrite Hs, Hw, Hw1, Hs1. split; [reflexivity|].
    cbn [map concat]. rewrite <- !app_assoc. reflexivity.
Qed.

Lemma load_lines_inputs (parse : list Z -> option RecordingLineV1) (ls : list (list Z))
    (evs : list RecordingEventV1) (mt : option RecordingMetaV1) (acc : list RecordingEventV1) :
  Forall2 (fun l ev => braced l /\ parse l = Some (Input ev)) ls evs ->
  load_lines parse (map Some ls) mt acc = Ok (mt, acc ++ evs).
Proof.
  intros H. revert acc. induction H as [|l ev ls evs [Hb Hp] _ IH]; intros acc.
  - rewrite app_nil_r. reflexivity.
  - destruct (braced_trim l Hb) as [Ht Hne]. cbn [map load_lines].
    rewrite Ht, bool_decide_eq_false_2 by exact Hne. rewrite Hp, IH, <- app_assoc. reflexivity.
Qed.

Lemma set_recording_get (s : PtySession) (r : option SessionRecording) :
  recording (set_recording s r) = r.
Proof. destruct s; reflexivity. Qed.

(** A recording read back gives what was recorded.  After a successful
    [start_session_recording] and any user inputs recorded with every write
    succeeding, loading the bytes the recording's writer handed to the file
    gives back the recording id, the meta record and every input event,
    with its time since the start and its data, in order.  This holds for
    every string of Unicode scalar values, provided [serde_json] parses
    each line it wrote back to the value it serialized. *)
Theorem recording_written_then_loaded (parse : list Z -> option RecordingLineV1)
    (st : AppState) (id rid p sp : list Z) (cwd : option (list Z)) (ca t1 t2 : N)
    (io : StartIo) (st' : AppState) (safe : list Z) (inputs : list (list Z * N)) :
  start_session_recording st id rid p sp cwd ca t1 t2 io = (st', Ok safe) ->
  Forall scalar_ok p -> Forall scalar_ok sp -> Forall scalar_ok (default [] cwd) ->
  Forall (fun i => Forall scalar_ok i.1) inputs ->
  parse (meta_line_json ca p sp cwd) = Some (Meta (mkMeta 1 ca p sp cwd)) ->
  Forall (fun i => parse (input_line_json (i.2 - t1) i.1) = Some (Input (mkEvent (i.2 - t1) i.1)))
    inputs ->
  exists s rec,
    sessions st' !! id = Some s /\ recording s = Some rec /\
    load_recording parse (app_data_dir io) (Some (written (rec_writer (record_all rec inputs)))) rid =
      Ok (mkLoaded safe (Some (mkMeta 1 ca p sp cwd))
            (map (fun i => mkEvent (i.2 - t1) i.1) inputs)).
Proof.
  intros Hstart Hp Hsp Hcwd Hin Hpm Hpi.
  apply start_session_recording_effect in Hstart
    as [[_ [e He]] | (s & _ & _ & _ & [d Hd] & _ & _ & _ & _ & [= ->] & ->)]; [discriminate He|].
  set (rec0 := mkRecording (sanitize_recording_id rid)
                 [WWrite (as_bytes (meta_line_json ca p sp cwd)); WWrite [10]; WFlush] t1 t2 0).
  exists (set_recording s (Some rec0)), rec0.
  split; [cbn [sessions set_sessions]; apply lookup_insert_eq|].
  split; [apply set_recording_get|].
  destruct (record_all_written rec0 inputs) as [_ Hw]. rewrite Hw. clear Hw.
  unfold load_recording, recording_file_path. rewrite Hd.
  set (f := fun i : list Z * N => input_line_json (i.2 - t1) i.1).
  assert (Hbytes : written (rec_writer rec0) ++
      concat (map (fun '(d, now) => as_bytes (input_line_json (now - started_at rec0) d) ++ [10])
                  inputs) =
      concat (map (fun l => as_bytes l ++ [10]) (meta_line_json ca p sp cwd :: map f inputs))).
  { cbn [map concat]. f_equal. apply (f_equal (@concat Z)). rewrite map_map. apply map_ext.
    intros [d' now]. reflexivity. }
  rewrite Hbytes, lines_of_records.
  2:{ constructor.
      - split; [apply meta_line_json_scalar; assumption|].
        split; [apply no_newline_of_safe, meta_line_json_line_safe; apply scalar_nonneg; assumption|].
        rewrite (proj2 (meta_line_json_braced ca p sp cwd)). discriminate.
      - apply Forall_map. eapply Forall_impl; [exact Hin|]. intros [d' now] Hd'. cbn in Hd'.
        unfold f. cbn [fst snd].
        split; [apply input_line_json_scalar, Hd'|].
        split; [apply no_newline_of_safe, input_line_json_line_safe, scalar_nonneg, Hd'|].
        rewrite (proj2 (input_line_json_braced (now - t1) d')). discriminate. }
  cbn [map load_lines].
  destruct (braced_trim _ (meta_line_json_braced ca p sp cwd)) as [Ht Hne].
  rewrite Ht, bool_decide_eq_false_2 by exact Hne. rewrite Hpm.
  rewrite (load_lines_inputs parse (map f inputs) (map (fun i => mkEvent (i.2 - t1) i.1) inputs)).
  - reflexivity.
  - unfold f. clear - Hpi. induction Hpi as [|i inputs Hi _ IH]; cbn [map]; constructor.
    + split; [apply input_line_json_braced | exact Hi].
    + exact IH.
Qed.

Lemma load_lines_fails (parse : list Z -> option RecordingLineV1) (ls : list (option (list Z)))
    (mt : option RecordingMetaV1) (evs : list RecordingEventV1) :
  (exists o, o ∈ ls /\ match o with
                     | None => True
                     | Some line => trim line <> [] /\ parse (trim line) = None
                     end) ->
  exists e, load_lines parse ls mt evs = Err e.
Proof.
  intros (o & Hin & Ho). revert mt evs.
  induction ls as [|o' ls IH]; intros mt evs; [apply not_elem_of_nil in Hin; contradiction|].
  apply elem_of_cons in Hin as [<-|Hin].
  - destruct o as [line|]; [|eexists; reflexivity].
    destruct Ho as [Hne Hp]. cbn [load_lines].
    rewrite bool_decide_eq_false_2 by exact Hne. rewrite Hp. eexists; reflexivity.
  - destruct o' as [line|]; [|eexists; reflexivity]. cbn [load_lines].
    case_bool_decide; [apply IH, Hin|].
    destruct (parse (trim line)) as [[m|ev]|]; [apply IH, Hin | apply IH, Hin | eexists; reflexivity].
Qed.

(** Loading is all or nothing: when one line of the file is not UTF-8,
    or is not blank and does not parse, [load_recording] returns an error,
    never the records of the other lines. *)
Theorem load_recording_all_or_nothing (parse : list Z -> option RecordingLineV1)
    (app : option (list Z)) (bytes rid : list Z) :
  (exists o, o ∈ lines bytes /\ match o with
                              | None => True
                              | Some line => trim line <> [] /\ parse (trim line) = None
                              end) ->
  exists e, load_recording parse app (Some bytes) rid = Err e.
Proof.
  intros H. unfold load_recording.
  destruct (recording_file_path app _) as [p|e]; [|eexists; reflexivity].
  destruct (load_lines_fails parse (lines bytes) None [] H) as [e ->]. eexists; reflexivity.
Qed.

Lemma load_recording_all_or_nothing_witness :
  exists e, load_recording (fun _ => Some (Input (mkEvent 0 []))) (Some (chars "/data"))
              (Some (chars "abc" ++ [10; 0xFF; 10])) (chars "rec1") = Err e.
Proof.
  apply (load_recording_all_or_nothing (fun _ => Some (Input (mkEvent 0 [])))
           (Some (chars "/data")) (chars "abc" ++ [10; 0xFF; 10]) (chars "rec1")).
  exists None. split; [|exact I].
  refine (bool_decide_unpack _ _). vm_compute. exact I.
Defined.

Lemma recording_written_then_loaded_witness :
  let st := mkState 2 {[ chars "1" := mkSession (chars "shell") (chars "zsh") [] None ]} false in
  let io := mkStartIo (Some (chars "/data")) true true true true in
  let meta_line := meta_line_json 1700000000000 (chars "p1") (chars "s1") None in
  let m := mkMeta 1 1700000000000 (chars "p1") (chars "s1") None in
  let parse := fun l =>
    if bool_decide (l = meta_line) then Some (Meta m)
    else if bool_decide (l = input_line_json 5 (chars "ls")) then Some (Input (mkEvent 5 (chars "ls")))
    else None in
  let r := start_session_recording st (chars "1") (chars "demo") (chars "p1") (chars "s1") None
             1700000000000 1000 1000 io in
  r.2 = Ok (chars "demo") /\
  exists s rec,
    sessions r.1 !! chars "1" = Some s /\ recording s = Some rec /\
    load_recording parse (app_data_dir io)
      (Some (written (rec_writer (record_all rec [(chars "ls", 1005%N)])))) (chars "demo") =
      Ok (mkLoaded (chars "demo") (Some m) [mkEvent 5 (chars "ls")]).
Proof.
  intros st io meta_line m parse r. split; [reflexivity|].
  apply (recording_written_then_loaded parse st (chars "1") (chars "demo") (chars "p1") (chars "s1")
           None 1700000000000 1000 1000 io r.1 (chars "demo") [(chars "ls", 1005%N)]).
  - reflexivity.
  - apply chars_scalar.
  - apply chars_scalar.
  - constructor.
  - constructor; [exact (chars_scalar "ls") | constructor].
  - vm_compute. reflexivity.
  - constructor; [vm_compute; reflexivity | constructor].
Defined.

End LoadFacts.
